(** * GoLuTube: the video store of lutube.go

    A shallow embedding of the storage functions of [lutube.go]
    ([loadVideo], [saveVideo], [getAvailableVideos] and the slot allocation
    of [uploadHandler]) over a model of the part of the file system and of
    the Go library they call, followed by the properties of the store. *)

From Stdlib Require Import String Ascii.
From stdpp Require Import gmap strings list sorting.

(** ** The file system the server runs on *)

Module FS.

(** The error numbers the calls of the program can meet. *)
Inductive errno : Type :=
  ENOENT | ENOTDIR | EISDIR | EEXIST | ENOSPC | EACCES | EIO.

(** Go's [error] values: an [os.PathError] of a failed call, or the
    error of a stream that broke ([io.Reader] of an upload). *)
Inductive error : Type :=
| PathError (op : string) (path : string) (e : errno)
| StreamError (msg : string).

#[global] Instance errno_eq_dec : EqDecision errno.
Proof. solve_decision. Defined.
#[global] Instance error_eq_dec : EqDecision error.
Proof. solve_decision. Defined.

(** A node is a directory or a regular file with its bytes (a Go string
    is a sequence of bytes, and so is [string] here). *)
Inductive node : Type :=
| Dir
| File (data : string).

#[global] Instance node_eq_dec : EqDecision node.
Proof. solve_decision. Defined.

(** The tree below the working directory of the server: resolved paths
    (the names from the working directory down) to nodes.  The working
    directory itself is the empty path and always a directory. *)
Abbreviation fs := (gmap (list string) node).

Definition node_at (σ : fs) (p : list string) : option node :=
  match p with
  | [] => Some Dir
  | _ => σ !! p
  end.

(** Components of a path, split at every slash. *)
Fixpoint split_path (s : string) : list string :=
  match s with
  | EmptyString => [EmptyString]
  | String c rest =>
      if Ascii.eqb c "/"%char then EmptyString :: split_path rest
      else match split_path rest with
           | [] => [String c EmptyString]
           | x :: xs => String c x :: xs
           end
  end.

(** One component of path resolution from directory [cur]: the empty
    name and [.] stay, [..] goes up (the top stays at the top), a name
    goes down.  The directory searched has to be a directory. *)
Definition lookup_step (σ : fs) (cur : list string) (c : string)
  : errno + list string :=
  match node_at σ cur with
  | None => inl ENOENT
  | Some (File _) => inl ENOTDIR
  | Some Dir =>
      if decide (c = "" ∨ c = ".") then inr cur
      else if decide (c = "..") then inr (removelast cur)
      else inr (cur ++ [c])
  end.

Fixpoint walk (σ : fs) (cur : list string) (cs : list string)
  : errno + list string :=
  match cs with
  | [] => inr cur
  | c :: cs' =>
      match lookup_step σ cur c with
      | inl e => inl e
      | inr cur' => walk σ cur' cs'
      end
  end.

(** Resolution of a relative path from the working directory. *)
Definition resolve (σ : fs) (path : string) : errno + list string :=
  walk σ [] (split_path path).

(** What a call did to the tree, for the order of the effects. *)
Inductive event : Type :=
| EvCreate (p : list string)
| EvWrite (p : list string) (bytes : string)
| EvMkdir (p : list string).

#[global] Instance event_eq_dec : EqDecision event.
Proof. solve_decision. Defined.

(** Calls run on the tree and log what they did to it. *)
Definition IO (A : Type) : Type := fs → A * fs * list event.

Definition ret {A} (a : A) : IO A := λ σ, (a, σ, []).

Definition bind {A B} (m : IO A) (k : A → IO B) : IO B :=
  λ σ, let '(a, σ1, t1) := m σ in
       let '(b, σ2, t2) := k a σ1 in
       (b, σ2, t1 ++ t2).

(** [ioutil.ReadFile]: the bytes of the regular file at [path]. *)
Definition ReadFile (σ : fs) (path : string) : string * option error :=
  match resolve σ path with
  | inl e => ("", Some (PathError "open" path e))
  | inr p =>
      match node_at σ p with
      | None => ("", Some (PathError "open" path ENOENT))
      | Some Dir => ("", Some (PathError "read" path EISDIR))
      | Some (File data) => (data, None)
      end
  end.

(** Go's pointer to [os.File]: [None] is the nil pointer, [Some p] a file
    open at node [p]. *)
Definition file : Type := option (list string).

(** [os.Create]: creates the file at [path] or truncates the one that is
    there.  [fault] is what the system refuses the call with, if it does
    (no permission, no space left for the entry). *)
Definition Create (fault : option errno) (path : string)
  : IO (file * option error) :=
  λ σ,
    match resolve σ path with
    | inl e => ((None, Some (PathError "open" path e)), σ, [])
    | inr p =>
        match node_at σ p with
        | Some Dir => ((None, Some (PathError "open" path EISDIR)), σ, [])
        | _ =>
            match fault with
            | Some e => ((None, Some (PathError "open" path e)), σ, [])
            | None => ((Some p, None), <[p := File ""]> σ, [EvCreate p])
            end
        end
    end.

Definition file_data (σ : fs) (p : list string) : string :=
  match σ !! p with
  | Some (File data) => data
  | _ => ""
  end.

Fixpoint string_take (n : nat) (s : string) : string :=
  match n, s with
  | S n', String c s' => String c (string_take n' s')
  | _, _ => EmptyString
  end.

(** What the device takes of [bytes]: [fault] is [(n, e)] when it takes
    [n] more bytes and then fails with [e]; a write that fits succeeds. *)
Definition accept (fault : option (nat * errno)) (bytes : string)
  : string * option error :=
  match fault with
  | Some (n, e) =>
      if decide (n < String.length bytes)
      then (string_take n bytes, Some (PathError "write" "" e))
      else (bytes, None)
  | None => (bytes, None)
  end.

(** [Write] of [os.File]: appends to the open file what the device takes
    of [bytes], and returns the count of bytes written with the error. *)
Definition file_Write (fault : option (nat * errno)) (f : file)
    (bytes : string) : IO (nat * option error) :=
  λ σ,
    match f with
    | None => ((0, Some (StreamError "invalid argument")), σ, [])
    | Some p =>
        let taken := accept fault bytes in
        ((String.length taken.1, taken.2),
         <[p := File (file_data σ p +:+ taken.1)]> σ,
         [EvWrite p taken.1])
    end.

(** [WriteString] of [os.File] is [Write] of the bytes of the string. *)
Definition file_WriteString := file_Write.

(** An [io.Reader]: the bytes it yields, and the error it ends with
    when the stream breaks ([None] for a clean end of file). *)
Record Reader : Type := mkReader {
  r_bytes : string;
  r_err : option error
}.

(** [io.Copy dst src]: everything [src] yields goes to [dst], until the
    end of [src] or the first error, of the write or of the read. *)
Definition Copy (fault : option (nat * errno)) (dst : file) (src : Reader)
  : IO (nat * option error) :=
  bind (file_Write fault dst (r_bytes src)) (λ '(n, werr),
    match werr with
    | Some e => ret (n, Some e)
    | None => ret (n, r_err src)
    end).

(** [os.Mkdir]: the exclusive create of a directory: it fails with
    [EEXIST] when anything is at [path] already.  [fault] as for
    [Create]. *)
Definition Mkdir (fault : option errno) (path : string)
  : IO (option error) :=
  λ σ,
    match resolve σ path with
    | inl e => (Some (PathError "mkdir" path e), σ, [])
    | inr p =>
        match node_at σ p with
        | Some _ => (Some (PathError "mkdir" path EEXIST), σ, [])
        | None =>
            match fault with
            | Some e => (Some (PathError "mkdir" path e), σ, [])
            | None => (None, <[p := Dir]> σ, [EvMkdir p])
            end
        end
    end.

(** [os.IsExist]. *)
Definition IsExist (err : option error) : bool :=
  match err with
  | Some (PathError _ _ EEXIST) => true
  | _ => false
  end.

(** [os.FileInfo], as far as the program looks at it. *)
Record FileInfo : Type := mkFileInfo {
  Name : string;
  IsDir : bool
}.

(** The name of [k] when [k] is an entry of directory [d]. *)
Fixpoint child_name (d k : list string) : option string :=
  match d, k with
  | [], [n] => Some n
  | x :: d', y :: k' => if decide (x = y) then child_name d' k' else None
  | _, _ => None
  end.

Definition entry_of (d : list string) (kv : list string * node)
  : option FileInfo :=
  match child_name d kv.1 with
  | Some n => Some (mkFileInfo n (bool_decide (kv.2 = Dir)))
  | None => None
  end.

Definition by_name (a b : FileInfo) : Prop :=
  Is_true (String.leb (Name a) (Name b)).

#[global] Instance by_name_dec a b : Decision (by_name a b).
Proof. unfold by_name. apply _. Defined.

(** The entries of directory [d], sorted by file name. *)
Definition dir_entries (σ : fs) (d : list string) : list FileInfo :=
  merge_sort by_name (omap (entry_of d) (map_to_list σ)).

(** [ioutil.ReadDir]: the entries of the directory at [path], sorted by
    file name. *)
Definition ReadDir (σ : fs) (path : string)
  : list FileInfo * option error :=
  match resolve σ path with
  | inl e => ([], Some (PathError "open" path e))
  | inr p =>
      match node_at σ p with
      | None => ([], Some (PathError "open" path ENOENT))
      | Some (File _) => ([], Some (PathError "readdirent" path ENOTDIR))
      | Some Dir => (dir_entries σ p, None)
      end
  end.
End FS.

Import FS.

(** ** The program *)

(** Basic structure for storing the important information about a video. *)
Record Video : Type := mkVideo {
  Id : string;
  Title : string
}.

#[global] Instance Video_eq_dec : EqDecision Video.
Proof. solve_decision. Defined.

(** [loadVideo]: the pointer is [None] for Go's nil. *)
Definition loadVideo (σ : fs) (id : string) : option Video * option error :=
  let filename := "videos/" +:+ id +:+ "/videodata.txt" in
  let '(videoData, err) := ReadFile σ filename in
  match err with
  | Some _ => (None, err)
  | None =>
      let title := videoData in
      (Some {| Id := id; Title := title |}, None)
  end.

(** What the system does to the four calls of one [saveVideo]. *)
Record faults : Type := mkFaults {
  create_video_fault : option errno;
  copy_fault : option (nat * errno);
  create_data_fault : option errno;
  write_fault : option (nat * errno)
}.

Definition no_faults : faults := mkFaults None None None None.

(** [saveVideo]: the result is Go's [error], [None] for nil.  The two
    middle returns give back [err], the error of the first [os.Create],
    as the source does.  The deferred [Close] of the two files does
    nothing to the tree and its error is dropped by the source. *)
Definition saveVideo (env : faults) (video : Video) (videoFile : Reader)
  : IO (option error) :=
  let videoDirectory := "./videos/" +:+ Id video in
  bind (Create (create_video_fault env) (videoDirectory +:+ "/video.mp4"))
    (λ '(serverVideoFile, err),
  match err with
  | Some _ => ret err
  | None =>
  bind (Copy (copy_fault env) serverVideoFile videoFile) (λ '(_, err1),
  match err1 with
  | Some _ => ret err
  | None =>
  bind (Create (create_data_fault env) (videoDirectory +:+ "/videodata.txt"))
    (λ '(videoDataFile, err2),
  match err2 with
  | Some _ => ret err
  | None =>
  bind (file_WriteString (write_fault env) videoDataFile (Title video))
    (λ '(_, err3), ret err3)
  end)
  end)
  end).

(** [getAvailableVideos]: the slice of pointers, [None] for a nil pointer. *)
Definition getAvailableVideos (σ : fs) : list (option Video) * option error :=
  let '(videoDirectories, err) := ReadDir σ "videos" in
  match err with
  | Some _ => ([], err)
  | None =>
      let availableVideos :=
        fold_left
          (λ availableVideos f,
             let '(video, _) := loadVideo σ (Name f) in
             availableVideos ++ [video])
          videoDirectories [] in
      (availableVideos, None)
  end.

(** ** Slot allocation: [ioutil.TempDir] and its use in [uploadHandler] *)

(** The slice [s[n:]].  Go panics where [s] is shorter than [n]; the
    paths [TempDir] returns below [videos/] are longer than the seven
    bytes [uploadHandler] cuts off. *)
Fixpoint string_drop (n : nat) (s : string) : string :=
  match n, s with
  | S n', String _ s' => string_drop n' s'
  | _, _ => s
  end.

Definition digit_char (d : N) : ascii :=
  Ascii.ascii_of_N (48 + d mod 10).

(** The last [width] decimal digits of [n], the most significant first. *)
Fixpoint decimal_digits (width : nat) (n : N) : string :=
  match width with
  | 0 => EmptyString
  | S w => decimal_digits w (n / 10) +:+ String (digit_char n) EmptyString
  end.

(** [nextSuffix] of io/ioutil: [strconv.Itoa(int(1e9 + r%1e9))[1:]], the
    nine decimal digits of the random number [r]. *)
Definition nextSuffix (r : N) : string :=
  decimal_digits 9 (r mod 10 ^ 9).

(** [filepath.Join] of a directory and a name. *)
Definition filepath_Join (dir name : string) : string :=
  match String.get (String.length dir - 1) dir with
  | Some "/"%char => dir +:+ name
  | _ => dir +:+ "/" +:+ name
  end.

(** What one attempt of a [TempDir] call meets: the number its random
    generator draws, and what the system refuses the [Mkdir] with, if it
    does. *)
Record attempt : Type := mkAttempt {
  draw : N;
  mkdir_fault : option errno
}.

(** The body of the loop of [TempDir]: one candidate name, one exclusive
    create.  The boolean is the [continue]. *)
Definition TempDir_try (dir pfx : string) (a : attempt)
  : IO (string * option error * bool) :=
  let try := filepath_Join dir (pfx +:+ nextSuffix (draw a)) in
  bind (Mkdir (mkdir_fault a) try) (λ err,
    if IsExist err then ret ("", err, true)
    else match err with
         | None => ret (try, err, false)
         | Some _ => ret ("", err, false)
         end).

(** [n] more rounds of the loop, from attempt [i] on; [err] is the named
    result as the rounds before left it. *)
Fixpoint TempDir_loop (n : nat) (rand : nat → attempt) (dir pfx : string)
    (i : nat) (err : option error) : IO (string * option error) :=
  match n with
  | 0 => ret ("", err)
  | S n' =>
      bind (TempDir_try dir pfx (rand i)) (λ '(name, err', again),
        if again then TempDir_loop n' rand dir pfx (S i) err'
        else ret (name, err'))
  end.

(** [ioutil.TempDir dir prefix]: at most 10000 attempts.  The reseeding
    of the generator after ten conflicts is part of what [rand] draws. *)
Definition TempDir (rand : nat → attempt) (dir pfx : string)
  : IO (string * option error) :=
  TempDir_loop (100 * 100) rand dir pfx 0 None.

(** The allocation of [uploadHandler]: the new directory of [TempDir]
    below [videos/], and the id cut out of its path. *)
Definition allocate (rand : nat → attempt) : IO (string * option error) :=
  bind (TempDir rand "videos/" "") (λ '(videoDir, err2),
    match err2 with
    | Some _ => ret ("", err2)
    | None =>
        let id := string_drop (String.length "./video") videoDir in
        ret (id, None)
    end).

(** One allocating request, between two of its system calls: in the loop
    of [TempDir] with [n] rounds left, or back in [uploadHandler] with its
    id and [err2]. *)
Inductive alloc_thread : Type :=
| Trying (rand : nat → attempt) (n i : nat) (err : option error)
| Returned (id : string) (err2 : option error).

(** What [uploadHandler] does with the results of [TempDir]. *)
Definition cut_id (videoDir : string) (err2 : option error) : alloc_thread :=
  match err2 with
  | Some _ => Returned "" err2
  | None => Returned (string_drop (String.length "./video") videoDir) None
  end.

(** The next system call of a request: one round of the loop.  The call
    is atomic, what lies between two calls is not. *)
Definition thread_step (t : alloc_thread) : IO alloc_thread :=
  match t with
  | Returned _ _ => ret t
  | Trying rand 0 i err => ret (cut_id "" err)
  | Trying rand (S n) i err =>
      bind (TempDir_try "videos/" "" (rand i)) (λ '(name, err', again),
        if again then ret (Trying rand n (S i) err')
        else ret (cut_id name err'))
  end.

Definition start (rand : nat → attempt) : alloc_thread :=
  Trying rand (100 * 100) 0 None.

(** Requests running together on one tree: the scheduler picks the
    request that makes its next call. *)
Definition pool_step (c : fs * list alloc_thread) (k : nat)
  : fs * list alloc_thread :=
  match c.2 !! k with
  | None => c
  | Some t => let '(t', σ', _) := thread_step t c.1 in (σ', <[k := t']> c.2)
  end.

Definition run_pool (sched : list nat) (c : fs * list alloc_thread)
  : fs * list alloc_thread :=
  fold_left pool_step sched c.

Definition returned_id (t : alloc_thread) : option string :=
  match t with
  | Returned id None => Some id
  | _ => None
  end.

Definition returned_ids (ts : list alloc_thread) : list string :=
  omap returned_id ts.

(** [allocate] called once per element of [rands], one call after the
    other; the ids of the calls that succeeded. *)
Fixpoint allocate_seq (rands : list (nat → attempt)) (σ : fs)
  : list string * fs :=
  match rands with
  | [] => ([], σ)
  | rand :: rands' =>
      let '(id, err2, σ', _) := allocate rand σ in
      let '(ids, σ'') := allocate_seq rands' σ' in
      (match err2 with None => id :: ids | Some _ => ids end, σ'')
  end.

(** ** Vocabulary of the store *)

(** The payload and the metadata location of an id, as [saveVideo] and
    [loadVideo] spell them. *)
Definition payload_path (id : string) : string :=
  "./videos/" +:+ id +:+ "/video.mp4".

Definition metadata_path (id : string) : string :=
  "videos/" +:+ id +:+ "/videodata.txt".

Definition is_dir (σ : fs) (path : string) : bool :=
  match resolve σ path with
  | inr p => bool_decide (node_at σ p = Some Dir)
  | inl _ => false
  end.

Definition is_file (σ : fs) (path : string) : bool :=
  match resolve σ path with
  | inr p => match node_at σ p with Some (File _) => true | _ => false end
  | inl _ => false
  end.

(** The slot of [id] exists: its directory is there. *)
Definition slot_exists (σ : fs) (id : string) : bool :=
  is_dir σ ("./videos/" +:+ id).

(** A metadata record exists for [id]. *)
Definition has_metadata (σ : fs) (id : string) : bool :=
  is_file σ (metadata_path id).

Fixpoint no_slash (s : string) : bool :=
  match s with
  | EmptyString => true
  | String c rest => negb (Ascii.eqb c "/"%char) && no_slash rest
  end.

(** The ids that name a slot: one path component, as [TempDir] makes
    them. *)
Definition slot_name (s : string) : bool :=
  no_slash s && bool_decide (s ≠ "" ∧ s ≠ "." ∧ s ≠ "..").

(** The trees a file system can be in: every node lies in a directory. *)
Definition wf (σ : fs) : Prop :=
  map_Forall (λ p _, p ≠ [] ∧ node_at σ (removelast p) = Some Dir) σ.

(** The first half of [saveVideo]: the write of the payload, with the
    error of the call that failed. *)
Definition write_payload (env : faults) (video : Video) (videoFile : Reader)
  : IO (option error) :=
  bind (Create (create_video_fault env) (payload_path (Id video)))
    (λ '(serverVideoFile, err),
  match err with
  | Some _ => ret err
  | None =>
      bind (Copy (copy_fault env) serverVideoFile videoFile)
        (λ '(_, err1), ret err1)
  end).

(** The second half: the write of the metadata to the slot. *)
Definition write_metadata (env : faults) (video : Video) : IO (option error) :=
  let videoDirectory := "./videos/" +:+ Id video in
  bind (Create (create_data_fault env) (videoDirectory +:+ "/videodata.txt"))
    (λ '(videoDataFile, err2),
  match err2 with
  | Some _ => ret err2
  | None =>
      bind (file_WriteString (write_fault env) videoDataFile (Title video))
        (λ '(_, err3), ret err3)
  end).


(** What [io.Copy] in [saveVideo] leaves in the payload and returns. *)
Definition copied (env : faults) (src : Reader) : string :=
  (accept (copy_fault env) (r_bytes src)).1.

Definition copy_error (env : faults) (src : Reader) : option error :=
  match (accept (copy_fault env) (r_bytes src)).2 with
  | Some e => Some e
  | None => r_err src
  end.

(** The four ways through [saveVideo], by the call it returns after; [d]
    is the directory of the slot, [p] and [m] the payload and the
    metadata node in it. *)
Inductive save_outcome (env : faults) (video : Video) (src : Reader) (σ : fs)
  : option error * fs * list event → Prop :=
| out_refused e :
    save_outcome env video src σ (Some e, σ, [])
| out_copy_failed d e1 :
    let p := d ++ ["video.mp4"] in
    resolve σ ("./videos/" +:+ Id video) = inr d →
    node_at σ d = Some Dir →
    σ !! p ≠ Some Dir →
    create_video_fault env = None →
    copy_error env src = Some e1 →
    save_outcome env video src σ
      (None, <[p := File (copied env src)]> σ,
       [EvCreate p; EvWrite p (copied env src)])
| out_data_refused d :
    let p := d ++ ["video.mp4"] in
    let m := d ++ ["videodata.txt"] in
    resolve σ ("./videos/" +:+ Id video) = inr d →
    node_at σ d = Some Dir →
    σ !! p ≠ Some Dir →
    create_video_fault env = None →
    copy_error env src = None →
    σ !! m = Some Dir ∨ is_Some (create_data_fault env) →
    save_outcome env video src σ
      (None, <[p := File (r_bytes src)]> σ,
       [EvCreate p; EvWrite p (r_bytes src)])
| out_written d :
    let p := d ++ ["video.mp4"] in
    let m := d ++ ["videodata.txt"] in
    let title := accept (write_fault env) (Title video) in
    resolve σ ("./videos/" +:+ Id video) = inr d →
    node_at σ d = Some Dir →
    σ !! p ≠ Some Dir →
    create_video_fault env = None →
    copy_error env src = None →
    σ !! m ≠ Some Dir →
    create_data_fault env = None →
    save_outcome env video src σ
      (title.2,
       <[m := File title.1]> (<[p := File (r_bytes src)]> σ),
       [EvCreate p; EvWrite p (r_bytes src); EvCreate m; EvWrite m title.1]).

(** Directories of [σ] are directories of [σ']. *)
Definition dirs_kept (σ σ' : fs) : Prop :=
  ∀ p, node_at σ p = Some Dir → node_at σ' p = Some Dir.



(** [k] calls of one request with nothing between them. *)
Fixpoint thread_run (k : nat) (t : alloc_thread) : IO alloc_thread :=
  match k with
  | 0 => ret t
  | S k' => bind (thread_step t) (thread_run k')
  end.

(** The trees a call passes on: what is there stays, as it is. *)
Definition nodes_kept (σ σ' : fs) : Prop := σ ⊆ σ'.

(** The requests the pool invariant allows: in the loop after a round
    that found the name taken, or back with the name of a slot. *)
Definition thread_ok (t : alloc_thread) : Prop :=
  match t with
  | Trying _ n _ err => n ≠ 0 ∨ is_Some err
  | Returned id None => slot_name id = true
  | Returned _ (Some _) => True
  end.

(** What holds of a pool started on [σ0], whatever the schedule: the
    tree has grown, and the ids handed out are distinct names of
    directories made since. *)
Definition pool_inv (σ0 : fs) (c : fs * list alloc_thread) : Prop :=
  nodes_kept σ0 c.1 ∧
  Forall thread_ok c.2 ∧
  NoDup (returned_ids c.2) ∧
  Forall (λ id, slot_name id = true ∧
                σ0 !! ["videos"; id] = None ∧
                c.1 !! ["videos"; id] = Some Dir) (returned_ids c.2).

(** ** Stores and uploads to run the program on *)

(** A store with one slot, allocated and never saved to. *)
Definition store_a : fs :=
  <[ ["videos"; "a"] := Dir ]> (<[ ["videos"] := Dir ]> ∅).

Definition trip : Video := {| Id := "a"; Title := "My Trip" |}.

Definition trip_again : Video := {| Id := "a"; Title := "Second cut" |}.

(** An upload that arrives whole, and one that breaks on the way. *)
Definition whole : Reader := mkReader "bytes" None.

Definition broken : Reader :=
  mkReader "byt" (Some (StreamError "unexpected EOF")).

(** A system that refuses to create the metadata file. *)
Definition refuse_data : faults := mkFaults None None (Some EACCES) None.

(** A generator that draws [r] every time, on a system that lets every
    [Mkdir] through. *)
Definition always (r : N) : nat → attempt := λ _, mkAttempt r None.

(** A generator that draws [r], [r + 1], ... *)
Definition counting (r : N) : nat → attempt :=
  λ i, mkAttempt (r + N.of_nat i) None.

(** A store with the directory [videos] and nothing in it. *)
Definition store_empty : fs := <[ ["videos"] := Dir ]> ∅.

(** A device with room for two more bytes of payload. *)
Definition disk_full : faults := mkFaults None (Some (2, ENOSPC)) None None.

(** A store with two slots: [a] allocated and never saved to, [b] saved. *)
Definition store_ab : fs :=
  (saveVideo no_faults {| Id := "b"; Title := "My Trip" |} whole
     (<[ ["videos"; "b"] := Dir ]> store_a)).1.2.

(** What [getAvailableVideos] appends for one entry of the listing. *)
Definition catalog_entry (σ : fs) (f : FileInfo) : option Video :=
  (loadVideo σ (Name f)).1.

(** ** The handlers *)

(** [url.Values]: the values of each key of a query, and [Get], the
    first value of a key or the empty string. *)
Abbreviation Values := (gmap string (list string)).

Definition Values_Get (v : Values) (key : string) : string :=
  match v !! key with
  | Some (x :: _) => x
  | _ => ""
  end.

(** [getErrorMessage]: the [switch] on the error type. *)
Definition getErrorMessage (query : Values) : string :=
  let errorType := Values_Get query "error" in
  if decide (errorType = "notfound")
  then "ID " +:+ Values_Get query "id" +:+ " not found."
  else if decide (errorType = "misc")
  then "Error: " +:+ Values_Get query "msg"
  else "".

(** The data the handlers hand to [renderTemplate]: the video pointer of
    the watch page, the anonymous struct of the home page. *)
Inductive page_data : Type :=
| WatchPage (video : option Video)
| HomePage (VideoList : list (option Video)) (ErrorMessage : string).

(** What a handler does to its response writer, call by call: a call of
    [http.Redirect], of [renderTemplate], of [http.Error], and a
    [panic]. *)
Inductive response : Type :=
| Redirect (url : string) (code : nat)
| Render (templateFile : string) (data : page_data)
| HttpError (msg : string) (code : nat)
| Panic (err : error).

Definition StatusSeeOther : nat := 303.
Definition StatusInternalServerError : nat := 500.

(** [Error()] of Go's errors: of the error numbers, and of
    [os.PathError], which is [Op + " " + Path + ": " + Err.Error()]. *)
Definition errno_Error (e : errno) : string :=
  match e with
  | ENOENT => "no such file or directory"
  | ENOTDIR => "not a directory"
  | EISDIR => "is a directory"
  | EEXIST => "file exists"
  | ENOSPC => "no space left on device"
  | EACCES => "permission denied"
  | EIO => "input/output error"
  end.

Definition Error (err : error) : string :=
  match err with
  | PathError op path e => op +:+ " " +:+ path +:+ ": " +:+ errno_Error e
  | StreamError msg => msg
  end.

(** [watchHandler], on the path of the request.  No [return] follows the
    redirect: [renderTemplate] is called in both cases. *)
Definition watchHandler (σ : fs) (path : string) : list response :=
  let id := string_drop (String.length "/watch/") path in
  let '(video, err) := loadVideo σ id in
  match err with
  | Some _ => [Redirect ("/?error=notfound&id=" +:+ id) StatusSeeOther]
  | None => []
  end ++ [Render "watch" (WatchPage video)].

(** [homeHandler], on the query of the request: its error and its
    calls. *)
Definition homeHandler (σ : fs) (query : Values)
  : option error * list response :=
  let '(videoList, err) := getAvailableVideos σ in
  match err with
  | Some _ => (err, [])
  | None =>
      let errorMessage := getErrorMessage query in
      (None, [Render "home" (HomePage videoList errorMessage)])
  end.

(** What [uploadHandler] reads of its request: the error of
    [ParseMultipartForm], the file of [FormFile("video-file")] or its
    error, and [FormValue("title")]. *)
Record upload : Type := mkUpload {
  form_error : option error;
  form_file : error + Reader;
  form_title : string
}.

(** [uploadHandler]: its error and its calls. *)
Definition uploadHandler (rand : nat → attempt) (env : faults) (req : upload)
  : IO (option error * list response) :=
  match form_error req with
  | Some _ => ret (form_error req, [])
  | None =>
      match form_file req with
      | inl err1 => ret (Some err1, [])
      | inr videoFile =>
          let title := form_title req in
          bind (allocate rand) (λ '(id, err2),
            match err2 with
            | Some _ => ret (err2, [])
            | None =>
                bind (saveVideo env {| Id := id; Title := title |} videoFile)
                  (λ err3,
                     match err3 with
                     | Some _ =>
                         ret (None, [Redirect "/?error=fu" StatusSeeOther])
                     | None =>
                         ret (None,
                              [Redirect ("/watch/" +:+ id) StatusSeeOther])
                     end)
            end)
      end
  end.

(** The two error handlers of [appHandler], on what the handler [fn]
    returned and did. *)
Definition internalServerErrorHandler (fn : option error * list response)
  : list response :=
  fn.2 ++ match fn.1 with
          | Some err =>
              [HttpError (Error err) StatusInternalServerError; Panic err]
          | None => []
          end.


(** The names of the entries of the directory [videos]. *)
Definition listed (σ : fs) : list string :=
  Name <$> (ReadDir σ "videos").1.

(** ** Paths *)

Section Paths.
Implicit Types (σ : fs) (s id : string) (cs : list string).

Lemma string_app_cons (x : ascii) (a b : string) :
  String x a +:+ b = String x (a +:+ b).
Proof. reflexivity. Qed.

Lemma string_app_assoc (a b c : string) : (a +:+ b) +:+ c = a +:+ b +:+ c.
Proof.
  induction a as [|x a IH]; [done|]. by rewrite !string_app_cons, IH.
Qed.

Lemma split_path_not_nil s : split_path s ≠ [].
Proof.
  destruct s as [|c s]; simpl; [done|].
  destruct (Ascii.eqb c "/"); [done|]. by destruct (split_path s).
Qed.

Lemma split_path_slash a b :
  split_path (a +:+ String "/" b) = split_path a ++ split_path b.
Proof.
  induction a as [|c a IH]; [done|].
  rewrite string_app_cons. simpl.
  rewrite IH. destruct (Ascii.eqb c "/"); [done|].
  pose proof (split_path_not_nil a). by destruct (split_path a).
Qed.

Lemma split_path_no_slash s : no_slash s = true → split_path s = [s].
Proof.
  induction s as [|c s IH]; simpl; [done|].
  intros [Hc Hs]%andb_prop. rewrite IH by done.
  by destruct (Ascii.eqb c "/").
Qed.

Lemma walk_app σ cur cs1 cs2 :
  walk σ cur (cs1 ++ cs2) =
  match walk σ cur cs1 with
  | inl e => inl e
  | inr p => walk σ p cs2
  end.
Proof.
  revert cur. induction cs1 as [|c cs1 IH]; intros cur; simpl; [done|].
  destruct (lookup_step σ cur c); [done|]. apply IH.
Qed.

(** The file [f] of the directory at [dir ++ "/"]. *)
Lemma resolve_in_dir σ dir f :
  no_slash f = true →
  resolve σ (dir +:+ String "/" f) =
  match resolve σ dir with
  | inl e => inl e
  | inr d => lookup_step σ d f
  end.
Proof.
  intros Hf. unfold resolve.
  rewrite split_path_slash, walk_app, (split_path_no_slash f) by done.
  destruct (walk σ [] (split_path dir)) as [e|d]; [done|]. simpl.
  by destruct (lookup_step σ d f).
Qed.

Lemma payload_path_eq id :
  payload_path id = ("./videos/" +:+ id) +:+ String "/" "video.mp4".
Proof. unfold payload_path. by rewrite string_app_assoc. Qed.

Lemma metadata_path_eq id :
  metadata_path id = ("videos/" +:+ id) +:+ String "/" "videodata.txt".
Proof. unfold metadata_path. by rewrite string_app_assoc. Qed.
End Paths.

(** ** The calls of the file system *)

Section Calls.
Implicit Types (σ : fs) (s id f : string) (d p : list string).

Lemma node_at_snoc σ d f : node_at σ (d ++ [f]) = σ !! (d ++ [f]).
Proof. by destruct d. Qed.

Lemma lookup_step_name σ d f :
  slot_name f = true →
  lookup_step σ d f =
  match node_at σ d with
  | None => inl ENOENT
  | Some (File _) => inl ENOTDIR
  | Some Dir => inr (d ++ [f])
  end.
Proof.
  intros [_ (?&?&?)%bool_decide_eq_true]%andb_prop. unfold lookup_step.
  destruct (node_at σ d) as [[]|]; try done.
  destruct (decide _) as [[]|]; [done..|]. by destruct (decide _).
Qed.

Lemma dirs_kept_insert σ p n :
  node_at σ p ≠ Some Dir → dirs_kept σ (<[p := n]> σ).
Proof.
  intros Hp q Hq. destruct q as [|c q]; [done|]. simpl in *.
  rewrite lookup_insert_ne; [done|]. intros ->. by apply Hp.
Qed.

(** A walk that arrives keeps arriving when directories are kept. *)
Lemma walk_dirs_kept σ σ' cur cs d :
  dirs_kept σ σ' → walk σ cur cs = inr d → walk σ' cur cs = inr d.
Proof.
  intros Hk. revert cur. induction cs as [|c cs IH]; intros cur; [done|].
  simpl. unfold lookup_step.
  destruct (node_at σ cur) as [[]|] eqn:Hcur; try done.
  rewrite (Hk _ Hcur). repeat destruct (decide _); apply IH.
Qed.

Lemma resolve_dirs_kept σ σ' path d :
  dirs_kept σ σ' → resolve σ path = inr d → resolve σ' path = inr d.
Proof. apply walk_dirs_kept. Qed.

(** [os.Create] of a file in a directory that is there. *)
Lemma Create_in_dir σ fault dir f d :
  slot_name f = true →
  resolve σ dir = inr d →
  node_at σ d = Some Dir →
  Create fault (dir +:+ String "/" f) σ =
  match σ !! (d ++ [f]) with
  | Some Dir =>
      ((None, Some (PathError "open" (dir +:+ String "/" f) EISDIR)), σ, [])
  | _ =>
      match fault with
      | Some e =>
          ((None, Some (PathError "open" (dir +:+ String "/" f) e)), σ, [])
      | None =>
          ((Some (d ++ [f]), None), <[d ++ [f] := File ""]> σ,
           [EvCreate (d ++ [f])])
      end
  end.
Proof.
  intros Hf Hd Hdir. unfold Create.
  rewrite resolve_in_dir, Hd, lookup_step_name, Hdir, node_at_snoc
    by (done || by apply andb_prop in Hf as [? _]).
  done.
Qed.

(** [os.Create] of a file in a directory that is not there. *)
Lemma Create_no_dir σ fault dir f :
  slot_name f = true →
  is_dir σ dir = false →
  ∃ e, Create fault (dir +:+ String "/" f) σ = ((None, Some e), σ, []).
Proof.
  intros Hf Hd. unfold Create, is_dir in *.
  rewrite resolve_in_dir by (by apply andb_prop in Hf as [? _]).
  destruct (resolve σ dir) as [e|d]; [by eexists|].
  rewrite lookup_step_name by done.
  destruct (node_at σ d) as [[]|]; [|by eexists..].
  exfalso. by rewrite bool_decide_eq_false in Hd.
Qed.
End Calls.

(** ** The ways through [saveVideo] *)

Section Save.
Implicit Types (σ : fs) (env : faults) (video : Video) (src : Reader).

Lemma accept_all fault bytes :
  (accept fault bytes).2 = None → (accept fault bytes).1 = bytes.
Proof.
  unfold accept. destruct fault as [[n e]|]; [|done].
  by destruct (decide _).
Qed.

Lemma is_dir_true σ path :
  is_dir σ path = true →
  ∃ d, resolve σ path = inr d ∧ node_at σ d = Some Dir.
Proof.
  unfold is_dir. destruct (resolve σ path) as [|d]; [done|].
  intros ?%bool_decide_eq_true. by exists d.
Qed.

(** [os.Create] where no directory is in the way. *)
Lemma Create_file σ fault dir f d :
  slot_name f = true →
  resolve σ dir = inr d →
  node_at σ d = Some Dir →
  σ !! (d ++ [f]) ≠ Some Dir →
  Create fault (dir +:+ String "/" f) σ =
  match fault with
  | Some e =>
      ((None, Some (PathError "open" (dir +:+ String "/" f) e)), σ, [])
  | None =>
      ((Some (d ++ [f]), None), <[d ++ [f] := File ""]> σ,
       [EvCreate (d ++ [f])])
  end.
Proof.
  intros Hf Hd Hdir Hn. rewrite (Create_in_dir _ _ _ _ d) by done.
  by destruct (σ !! (d ++ [f])) as [[]|].
Qed.

(** [saveVideo] takes one of the four ways, whatever it is given. *)
Lemma saveVideo_outcome env video src σ :
  save_outcome env video src σ (saveVideo env video src σ).
Proof.
  unfold saveVideo. set (dir := "./videos/" +:+ Id video).
  assert (Hv : slot_name "video.mp4" = true) by reflexivity.
  assert (Hm : slot_name "videodata.txt" = true) by reflexivity.
  destruct (is_dir σ dir) eqn:Hdir.
  2:{ destruct (Create_no_dir σ (create_video_fault env) dir _ Hv Hdir)
        as [e He].
      unfold bind. rewrite He. simpl. constructor. }
  apply is_dir_true in Hdir as (d & Hd & Hnode).
  set (p := d ++ ["video.mp4"]). set (m := d ++ ["videodata.txt"]).
  assert (Hpm : p ≠ m) by (intros [=]%(inj (app d))).
  unfold bind at 1.
  destruct (decide (σ !! p = Some Dir)) as [Hσp|Hσp].
  { rewrite (Create_in_dir _ _ _ _ d) by done. fold p. rewrite Hσp.
    simpl. constructor. }
  rewrite (Create_file _ _ _ _ d) by done. fold p.
  destruct (create_video_fault env) eqn:Hcf; [simpl; constructor|].
  unfold bind at 1, Copy, bind at 1, file_Write, file_data.
  rewrite lookup_insert_eq, insert_insert_eq.
  change ("" +:+ ?x) with x.
  pose proof (accept_all (copy_fault env) (r_bytes src)) as Hall.
  assert (Hce : copy_error env src =
                match (accept (copy_fault env) (r_bytes src)).2 with
                | Some e => Some e | None => r_err src end) by done.
  fold (copied env src) in *.
  destruct (accept (copy_fault env) (r_bytes src)).2 as [e|] eqn:Hacc.
  { simpl. by eapply out_copy_failed. }
  simpl. destruct (r_err src) as [e|] eqn:Herr.
  { simpl. by eapply out_copy_failed. }
  rewrite Hall by done.
  set (σ2 := <[p := File (r_bytes src)]> σ).
  assert (Hk : dirs_kept σ σ2).
  { apply dirs_kept_insert. unfold p. by rewrite node_at_snoc. }
  assert (Hσm : σ2 !! m = σ !! m) by (by apply lookup_insert_ne).
  unfold bind at 1.
  destruct (decide (σ !! m = Some Dir)) as [Hm'|Hm'].
  { rewrite (Create_in_dir _ _ _ _ d);
      [|done|by eapply resolve_dirs_kept|by apply Hk].
    fold m. rewrite Hσm, Hm'. simpl. eapply out_data_refused; eauto. }
  rewrite (Create_file _ _ _ _ d);
    [|done|by eapply resolve_dirs_kept|by apply Hk|by fold m; rewrite Hσm].
  fold m.
  destruct (create_data_fault env) eqn:Hdf.
  { simpl. eapply out_data_refused; eauto. }
  simpl. unfold file_data. rewrite lookup_insert_eq, insert_insert_eq.
  by eapply out_written.
Qed.


Lemma saveVideo_both_written env video src σ σ1 t1 σ2 t2 :
  write_payload env video src σ = (None, σ1, t1) →
  write_metadata env video σ1 = (None, σ2, t2) →
  saveVideo env video src σ = (None, σ2, t1 ++ t2).
Proof.
  unfold write_payload, write_metadata, saveVideo, payload_path, bind.
  destruct (Create _ _ σ) as [[[f err] σ'] t']. destruct err; [done|].
  unfold bind.
  destruct (Copy _ _ _ σ') as [[[n err1] σ''] t'']. destruct err1; simpl.
  { by intros [=]. }
  intros [= <- <-].
  destruct (Create _ _ σ'') as [[[f2 err2] σ3] t3]. destruct err2; [done|].
  unfold bind.
  destruct (file_WriteString _ _ _ σ3) as [[[n3 err3] σ4] t4]. simpl.
  intros [= -> <- <-]. by rewrite !app_nil_r, app_assoc.
Qed.
End Save.

(** ** Reading a slot *)

Section Load.
Implicit Types (σ : fs) (env : faults) (video : Video) (src : Reader).
Implicit Types (id f : string) (d : list string).

Lemma resolve_slot_dot σ id :
  resolve σ ("videos/" +:+ id) = resolve σ ("./videos/" +:+ id).
Proof. reflexivity. Qed.

Lemma resolve_metadata σ id :
  resolve σ (metadata_path id) =
  match resolve σ ("./videos/" +:+ id) with
  | inl e => inl e
  | inr d => lookup_step σ d "videodata.txt"
  end.
Proof.
  rewrite metadata_path_eq, resolve_in_dir by done.
  by rewrite resolve_slot_dot.
Qed.

(** [loadVideo] of an id whose slot is the directory [d]. *)
Lemma loadVideo_slot σ id d :
  resolve σ ("./videos/" +:+ id) = inr d →
  node_at σ d = Some Dir →
  loadVideo σ id =
  match σ !! (d ++ ["videodata.txt"]) with
  | Some (File data) => (Some {| Id := id; Title := data |}, None)
  | Some Dir => (None, Some (PathError "read" (metadata_path id) EISDIR))
  | None => (None, Some (PathError "open" (metadata_path id) ENOENT))
  end.
Proof.
  intros Hd Hdir. unfold loadVideo, ReadFile.
  change ("videos/" +:+ id +:+ "/videodata.txt") with (metadata_path id).
  rewrite resolve_metadata, Hd.
  rewrite lookup_step_name, Hdir, node_at_snoc by done.
  by destruct (σ !! (d ++ ["videodata.txt"])) as [[]|].
Qed.

(** [loadVideo] of an id that has no slot. *)
Lemma loadVideo_no_slot σ id :
  slot_exists σ id = false → ∃ e, loadVideo σ id = (None, Some e).
Proof.
  unfold slot_exists, is_dir. intros Hd.
  unfold loadVideo, ReadFile.
  change ("videos/" +:+ id +:+ "/videodata.txt") with (metadata_path id).
  rewrite resolve_metadata.
  destruct (resolve σ ("./videos/" +:+ id)) as [e|d]; [by eexists|].
  rewrite lookup_step_name by done.
  destruct (node_at σ d) as [[]|]; [|by eexists..].
  exfalso. by rewrite bool_decide_eq_false in Hd.
Qed.

(** The write of the payload: refused by [os.Create], or the payload
    holds what was copied. *)
Lemma write_payload_outcome env video src σ :
  (∃ e, write_payload env video src σ = (Some e, σ, [])) ∨
  (∃ d, resolve σ ("./videos/" +:+ Id video) = inr d ∧
        node_at σ d = Some Dir ∧
        σ !! (d ++ ["video.mp4"]) ≠ Some Dir ∧
        write_payload env video src σ =
          (copy_error env src,
           <[d ++ ["video.mp4"] := File (copied env src)]> σ,
           [EvCreate (d ++ ["video.mp4"]);
            EvWrite (d ++ ["video.mp4"]) (copied env src)])).
Proof.
  set (dir := "./videos/" +:+ Id video).
  assert (Hv : slot_name "video.mp4" = true) by reflexivity.
  destruct (is_dir σ dir) eqn:Hdir.
  2:{ destruct (Create_no_dir σ (create_video_fault env) dir _ Hv Hdir)
        as [e He].
      left. exists e. unfold write_payload, bind.
      rewrite payload_path_eq. fold dir. by rewrite He. }
  apply is_dir_true in Hdir as (d & Hd & Hnode).
  set (p := d ++ ["video.mp4"]).
  destruct (decide (σ !! p = Some Dir)) as [Hσp|Hσp].
  { left. eexists. unfold write_payload, bind.
    rewrite payload_path_eq, (Create_in_dir _ _ _ _ d) by done.
    fold p. by rewrite Hσp. }
  destruct (create_video_fault env) eqn:Hcf.
  { left. eexists. unfold write_payload, bind at 1.
    by rewrite payload_path_eq, (Create_file _ _ _ _ d), Hcf by done. }
  right. exists d. split_and!; [done..|].
  unfold write_payload, bind at 1.
  rewrite payload_path_eq, (Create_file _ _ _ _ d), Hcf by done.
  unfold bind at 1, Copy, bind at 1, file_Write, file_data.
  rewrite lookup_insert_eq, insert_insert_eq.
  change ("" +:+ ?x) with x. unfold copy_error, copied.
  by destruct (accept (copy_fault env) (r_bytes src)).2.
Qed.

End Load.

(** ** Saving: errors, order and round trip *)

Section SaveProperties.
Implicit Types (σ : fs) (env : faults) (video : Video) (src : Reader).
Implicit Types (id f : string) (d : list string).

Lemma Create_failed_quiet σ fault path (h : file) e σ' t :
  Create fault path σ = ((h, Some e), σ', t) → σ' = σ ∧ t = [].
Proof.
  unfold Create. destruct (resolve σ path); [by intros [=]|].
  destruct (node_at σ _) as [[]|], fault; by intros [=].
Qed.

(** Once the payload file is created, an error of the copy is lost:
    [saveVideo] returns nil. *)
Lemma saveVideo_copy_error_lost env video src σ e σ1 ev t1 :
  write_payload env video src σ = (Some e, σ1, ev :: t1) →
  saveVideo env video src σ = (None, σ1, ev :: t1).
Proof.
  unfold write_payload, saveVideo, payload_path, bind.
  destruct (Create _ _ σ) as [[[f err] σ'] t'] eqn:HC.
  destruct err; simpl.
  { apply Create_failed_quiet in HC as [_ ->]. by intros [=]. }
  unfold bind.
  destruct (Copy _ _ _ σ') as [[[n err1] σ''] t'']. destruct err1; simpl.
  { by intros [= <- <- <-]. }
  done.
Qed.

(** The write of the metadata: refused by [os.Create], or the metadata
    holds what was written of the title. *)
Lemma write_metadata_outcome env video σ :
  (∃ e, write_metadata env video σ = (Some e, σ, [])) ∨
  (∃ d, resolve σ ("./videos/" +:+ Id video) = inr d ∧
        node_at σ d = Some Dir ∧
        σ !! (d ++ ["videodata.txt"]) ≠ Some Dir ∧
        write_metadata env video σ =
          ((accept (write_fault env) (Title video)).2,
           <[d ++ ["videodata.txt"] :=
               File (accept (write_fault env) (Title video)).1]> σ,
           [EvCreate (d ++ ["videodata.txt"]);
            EvWrite (d ++ ["videodata.txt"])
              (accept (write_fault env) (Title video)).1])).
Proof.
  set (dir := "./videos/" +:+ Id video).
  assert (Hv : slot_name "videodata.txt" = true) by reflexivity.
  destruct (is_dir σ dir) eqn:Hdir.
  2:{ destruct (Create_no_dir σ (create_data_fault env) dir _ Hv Hdir)
        as [e He].
      left. exists e. unfold write_metadata, bind.
      fold dir. by rewrite He. }
  apply is_dir_true in Hdir as (d & Hd & Hnode).
  set (m := d ++ ["videodata.txt"]).
  destruct (decide (σ !! m = Some Dir)) as [Hσm|Hσm].
  { left. eexists. unfold write_metadata, bind. fold dir.
    rewrite (Create_in_dir _ _ _ _ d) by done.
    fold m. by rewrite Hσm. }
  destruct (create_data_fault env) eqn:Hcf.
  { left. eexists. unfold write_metadata, bind at 1. fold dir.
    by rewrite (Create_file _ _ _ _ d), Hcf by done. }
  right. exists d. split_and!; [done..|].
  unfold write_metadata, bind at 1. fold dir.
  rewrite (Create_file _ _ _ _ d), Hcf by done.
  unfold bind, file_WriteString, file_Write, file_data.
  by rewrite lookup_insert_eq, insert_insert_eq.
Qed.

(** Round trip of the title when both writes succeed. *)
Lemma save_load_written env video src σ σ1 t1 σ2 t2 :
  write_payload env video src σ = (None, σ1, t1) →
  write_metadata env video σ1 = (None, σ2, t2) →
  saveVideo env video src σ = (None, σ2, t1 ++ t2) ∧
  loadVideo σ2 (Id video) = (Some video, None).
Proof.
  intros Hp Hm. split; [by eapply saveVideo_both_written|].
  destruct (write_metadata_outcome env video σ1)
    as [[e He]|(d & Hd & Hdir & Hnd & He)];
    rewrite He in Hm; [done|]. injection Hm as Hacc <- <-.
  set (m := d ++ ["videodata.txt"]) in *.
  rewrite (loadVideo_slot _ _ d).
  - rewrite lookup_insert_eq, accept_all by done. by destruct video.
  - eapply resolve_dirs_kept; [|done]. apply dirs_kept_insert.
    unfold m. by rewrite node_at_snoc.
  - eapply dirs_kept_insert; [|done]. unfold m. by rewrite node_at_snoc.
Qed.




Lemma slot_exists_true σ id d :
  resolve σ ("./videos/" +:+ id) = inr d →
  node_at σ d = Some Dir →
  slot_exists σ id = true.
Proof.
  intros Hd Hdir. unfold slot_exists, is_dir. rewrite Hd.
  by apply bool_decide_eq_true.
Qed.

(** C10. For every id whose slot directory does not exist, [saveVideo]
    fails with an error, does nothing to the tree and so writes neither
    a payload nor a metadata record: the store is unchanged. *)
Theorem save_without_slot env video src σ :
  slot_exists σ (Id video) = false →
  ∃ e, saveVideo env video src σ = (Some e, σ, []).
Proof.
  intros Hno. pose proof (saveVideo_outcome env video src σ) as Hout.
  inversion Hout as [e He|d e1 p Hd Hdir|d p m Hd Hdir|d p m t Hd Hdir];
    [by exists e|..];
    by rewrite (slot_exists_true _ _ d) in Hno.
Qed.

Lemma save_without_slot_witness :
  slot_exists store_a "b" = false ∧
  ∃ e, saveVideo no_faults {| Id := "b"; Title := "My Trip" |} whole store_a
       = (Some e, store_a, []).
Proof.
  split; [reflexivity|].
  apply (save_without_slot no_faults {| Id := "b"; Title := "My Trip" |}).
  reflexivity.
Defined.



(** [ioutil.ReadFile] of a file of a directory that is there. *)
Lemma ReadFile_in_dir σ dir f d :
  slot_name f = true →
  resolve σ dir = inr d →
  node_at σ d = Some Dir →
  ReadFile σ (dir +:+ String "/" f) =
  match σ !! (d ++ [f]) with
  | Some (File data) => (data, None)
  | Some Dir => ("", Some (PathError "read" (dir +:+ String "/" f) EISDIR))
  | None => ("", Some (PathError "open" (dir +:+ String "/" f) ENOENT))
  end.
Proof.
  intros Hf Hd Hdir. unfold ReadFile.
  rewrite resolve_in_dir, Hd, lookup_step_name, Hdir, node_at_snoc
    by (done || by apply andb_prop in Hf as [? _]).
  by destruct (σ !! (d ++ [f])) as [[]|].
Qed.

(** Round trip of the payload when both writes succeed. *)
Lemma save_payload_written env video src σ σ1 t1 σ2 t2 :
  write_payload env video src σ = (None, σ1, t1) →
  write_metadata env video σ1 = (None, σ2, t2) →
  ReadFile σ2 (payload_path (Id video)) = (r_bytes src, None).
Proof.
  intros Hp Hm.
  destruct (write_payload_outcome env video src σ)
    as [[e He]|(d & Hd & Hdir & Hnd & He)];
    rewrite He in Hp; [done|]. injection Hp as Hce <- <-.
  set (p := d ++ ["video.mp4"]) in *.
  set (σ1 := <[p := File (copied env src)]> σ) in *.
  assert (Hk : dirs_kept σ σ1).
  { apply dirs_kept_insert. unfold p. by rewrite node_at_snoc. }
  assert (Hcopied : copied env src = r_bytes src).
  { unfold copied, copy_error in *. apply accept_all.
    by destruct (accept (copy_fault env) (r_bytes src)).2. }
  destruct (write_metadata_outcome env video σ1)
    as [[e He']|(d' & Hd' & Hdir' & Hnd' & He')];
    rewrite He' in Hm; [done|]. injection Hm as _ <- <-.
  rewrite (resolve_dirs_kept _ _ _ _ Hk Hd) in Hd'.
  injection Hd' as <-. set (m := d ++ ["videodata.txt"]) in *.
  rewrite payload_path_eq, (ReadFile_in_dir _ _ _ d); [|done| |].
  - fold p. rewrite lookup_insert_ne by (by intros [=]%(inj (app d))).
    unfold σ1. by rewrite lookup_insert_eq, Hcopied.
  - eapply resolve_dirs_kept; [|by eapply resolve_dirs_kept].
    apply dirs_kept_insert. unfold m. by rewrite node_at_snoc.
  - eapply dirs_kept_insert; [|done]. unfold m. by rewrite node_at_snoc.
Qed.

(** C1. [saveVideo] on a slot that is there, with an upload that breaks
    on the way: the write of the payload fails, and [saveVideo] returns
    nil.  The same when the system refuses to create the metadata file:
    the write of the metadata fails, and [saveVideo] returns nil. *)
Theorem save_hides_failed_write :
  ((write_payload no_faults trip broken store_a).1.1
   = Some (StreamError "unexpected EOF") ∧
   (saveVideo no_faults trip broken store_a).1.1 = None) ∧
  ((write_payload refuse_data trip whole store_a).1.1 = None ∧
   (write_metadata refuse_data trip
      (write_payload refuse_data trip whole store_a).1.2).1.1
   = Some (PathError "open" "./videos/a/videodata.txt" EACCES) ∧
   (saveVideo refuse_data trip whole store_a).1.1 = None).
Proof. vm_compute. done. Qed.

(** C3. [saveVideo] on a slot that is there, on a device that takes two
    bytes of the payload: [saveVideo] returns nil, and [loadVideo] of
    the id then fails, no metadata having been written. *)
Theorem load_after_nil_save_fails :
  (saveVideo disk_full trip whole store_a).1.1 = None ∧
  loadVideo (saveVideo disk_full trip whole store_a).1.2 "a"
  = (None, Some (PathError "open" "videos/a/videodata.txt" ENOENT)).
Proof. vm_compute. done. Qed.

(** C6. A save of one title, then a save of another title to the same
    id with an upload that breaks: the second [saveVideo] returns nil,
    [loadVideo] still returns the first title, and the payload is what
    arrived of the second upload. *)
Theorem second_nil_save_keeps_first_title :
  let σ1 := (saveVideo no_faults trip whole store_a).1.2 in
  let σ2 := (saveVideo no_faults trip_again broken σ1).1.2 in
  (saveVideo no_faults trip whole store_a).1.1 = None ∧
  (saveVideo no_faults trip_again broken σ1).1.1 = None ∧
  loadVideo σ2 "a" = (Some trip, None) ∧
  ReadFile σ2 (payload_path "a") = ("byt", None).
Proof. vm_compute. done. Qed.
End SaveProperties.

(** ** Loading without a record, and the frame of a save *)

Section LoadProperties.
Implicit Types (σ : fs) (env : faults) (video : Video) (src : Reader).
Implicit Types (id f : string) (d : list string).

(** A record is there exactly when [loadVideo] returns a video. *)
Lemma has_metadata_load σ id :
  if has_metadata σ id
  then ∃ title, loadVideo σ id = (Some {| Id := id; Title := title |}, None)
  else ∃ op e,
         loadVideo σ id = (None, Some (PathError op (metadata_path id) e)).
Proof.
  unfold has_metadata, is_file, loadVideo, ReadFile.
  change ("videos/" +:+ id +:+ "/videodata.txt") with (metadata_path id).
  destruct (resolve σ (metadata_path id)) as [e|p]; [by do 2 eexists|].
  destruct (node_at σ p) as [[]|]; by repeat eexists.
Qed.

(** The slot of a name is the directory of that name in [videos]. *)
Lemma resolve_slot_name σ id :
  slot_name id = true →
  resolve σ ("./videos/" +:+ id) =
  match σ !! ["videos"] with
  | Some Dir => inr ["videos"; id]
  | Some (File _) => inl ENOTDIR
  | None => inl ENOENT
  end.
Proof.
  intros Hid.
  change ("./videos/" +:+ id) with ("./videos" +:+ String "/" id).
  rewrite resolve_in_dir by (by apply andb_prop in Hid as [? _]).
  change (resolve σ "./videos") with (inr (A:=errno) ["videos"]).
  cbv iota beta. by rewrite lookup_step_name.
Qed.


(** [saveVideo] changes the tree at the two files of its slot only. *)
Lemma saveVideo_frame env video src σ q :
  (∀ d, resolve σ ("./videos/" +:+ Id video) = inr d →
        q ≠ d ++ ["video.mp4"] ∧ q ≠ d ++ ["videodata.txt"]) →
  (saveVideo env video src σ).1.2 !! q = σ !! q.
Proof.
  intros Hq. pose proof (saveVideo_outcome env video src σ) as Hout.
  inversion Hout as [e He|d e1 p Hd Hdir|d p m Hd Hdir|d p m t Hd Hdir];
    simpl; [done|..]; destruct (Hq d Hd) as [? ?];
    by rewrite ?lookup_insert_ne.
Qed.


End LoadProperties.

(** ** Allocation *)

Section Allocate.
Implicit Types (σ : fs) (rand : nat → attempt) (a : attempt).
Implicit Types (id name : string) (t : alloc_thread).

Lemma string_length_app (x y : string) :
  String.length (x +:+ y) = String.length x + String.length y.
Proof.
  induction x as [|c x IH]; [done|].
  rewrite string_app_cons. simpl. by rewrite IH.
Qed.

Lemma no_slash_app (x y : string) :
  no_slash (x +:+ y) = no_slash x && no_slash y.
Proof.
  induction x as [|c x IH]; [done|].
  rewrite string_app_cons. simpl. rewrite IH. by rewrite andb_assoc.
Qed.

Lemma digit_char_no_slash (n : N) :
  Ascii.eqb (digit_char n) "/" = false.
Proof.
  unfold digit_char. pose proof (N.mod_upper_bound n 10) as Hlt.
  destruct (n mod 10)%N as [|p]; [done|].
  do 4 (destruct p as [p|p|]; try done); lia.
Qed.

Lemma decimal_digits_length w n : String.length (decimal_digits w n) = w.
Proof.
  revert n. induction w as [|w IH]; intros n; [done|]. simpl.
  rewrite string_length_app, IH. simpl. lia.
Qed.

Lemma decimal_digits_no_slash w n : no_slash (decimal_digits w n) = true.
Proof.
  revert n. induction w as [|w IH]; intros n; [done|]. simpl.
  rewrite no_slash_app, IH. simpl. by rewrite digit_char_no_slash.
Qed.

(** The names [TempDir] tries name slots. *)
Lemma nextSuffix_slot_name r : slot_name (nextSuffix r) = true.
Proof.
  unfold slot_name, nextSuffix.
  pose proof (decimal_digits_length 9 (r mod 10 ^ 9)) as Hlen.
  pose proof (decimal_digits_no_slash 9 (r mod 10 ^ 9)) as Hns.
  set (s := decimal_digits 9 (r mod 10 ^ 9)) in *. clearbody s.
  rewrite Hns. apply bool_decide_eq_true.
  split_and!; intros ->; discriminate Hlen.
Qed.

(** One round of [TempDir] below [videos/]: the directory of the name
    is made, where it was not there and the system let it, or the tree
    is as it was. *)
Lemma TempDir_try_videos σ a :
  let name := nextSuffix (draw a) in
  (σ !! ["videos"] = Some Dir ∧ σ !! ["videos"; name] = None ∧
   TempDir_try "videos/" "" a σ =
     (("videos/" +:+ name, None, false),
      <[ ["videos"; name] := Dir ]> σ, [EvMkdir ["videos"; name]])) ∨
  (∃ e again, TempDir_try "videos/" "" a σ = (("", Some e, again), σ, [])).
Proof.
  intros name. pose proof (nextSuffix_slot_name (draw a)) as Hname.
  fold name in Hname. unfold TempDir_try, bind, Mkdir.
  change (filepath_Join "videos/" ("" +:+ nextSuffix (draw a)))
    with ("videos" +:+ String "/" name).
  rewrite resolve_in_dir by (by apply andb_prop in Hname as [? _]).
  change (resolve σ "videos") with (inr (A:=errno) ["videos"]).
  cbv iota beta. rewrite lookup_step_name by done. simpl.
  destruct (σ !! ["videos"]) as [[]|] eqn:Hv; [|right; by do 2 eexists..].
  change (node_at σ ["videos"; name]) with (σ !! ["videos"; name]).
  destruct (σ !! ["videos"; name]) as [n|] eqn:Hn;
    [right; by do 2 eexists|].
  destruct (mkdir_fault a) as [e|]; [right|by left].
  exists (PathError "mkdir" ("videos" +:+ String "/" name) e).
  destruct e; by eexists.
Qed.

(** The loop of [TempDir] below [videos/]: one directory made, of a
    name that was free, or nothing done and an error. *)
Lemma TempDir_loop_videos n rand i err σ :
  (∃ name, slot_name name = true ∧
     σ !! ["videos"] = Some Dir ∧ σ !! ["videos"; name] = None ∧
     TempDir_loop n rand "videos/" "" i err σ =
       (("videos/" +:+ name, None),
        <[ ["videos"; name] := Dir ]> σ, [EvMkdir ["videos"; name]])) ∨
  (∃ err', (is_Some err' ∨ n = 0 ∧ err' = err) ∧
     TempDir_loop n rand "videos/" "" i err σ = (("", err'), σ, [])).
Proof.
  revert i err. induction n as [|n IH]; intros i err.
  { right. exists err. split; [by right|done]. }
  simpl. unfold bind.
  destruct (TempDir_try_videos σ (rand i))
    as [(Hv & Hn & ->)|(e & again & ->)].
  { left. exists (nextSuffix (draw (rand i))).
    split_and!; [apply nextSuffix_slot_name|done..|reflexivity]. }
  destruct again.
  - destruct (IH (S i) (Some e))
      as [(name & ? & ? & ? & ->)|(err' & Herr & ->)].
    + left. by exists name.
    + right. exists err'. split; [|done]. left.
      destruct Herr as [?|[_ ->]]; [done|by eexists].
  - right. exists (Some e). split; [by left; eexists|done].
Qed.

(** [allocate]: a directory made in [videos], of a name that was free,
    and the name returned; or nothing done and an error. *)
Lemma allocate_outcome rand σ :
  (∃ id, slot_name id = true ∧
     σ !! ["videos"] = Some Dir ∧ σ !! ["videos"; id] = None ∧
     allocate rand σ =
       ((id, None), <[ ["videos"; id] := Dir ]> σ,
        [EvMkdir ["videos"; id]])) ∨
  (∃ e, allocate rand σ = (("", Some e), σ, [])).
Proof.
  unfold allocate, TempDir, bind.
  destruct (TempDir_loop_videos (100 * 100) rand 0 None σ)
    as [(name & ? & ? & ? & ->)|(err' & Herr & ->)].
  - left. by exists name.
  - right. destruct Herr as [[e ->]|[? _]]; [by exists e|done].
Qed.

(** One call of a request of the pool. *)
Lemma thread_step_outcome t σ :
  thread_ok t →
  let '(t', σ', _) := thread_step t σ in
  thread_ok t' ∧
  (σ' = σ ∧ returned_id t' = returned_id t ∨
   ∃ id, returned_id t = None ∧ returned_id t' = Some id ∧
         slot_name id = true ∧ σ !! ["videos"; id] = None ∧
         σ' = <[ ["videos"; id] := Dir ]> σ).
Proof.
  intros Hok. destruct t as [rand [|n] i err|id err2].
  - destruct Hok as [?|[e ->]]; [done|]. simpl. split; [done|left; done].
  - pose proof (nextSuffix_slot_name (draw (rand i))) as Hname.
    pose proof (TempDir_try_videos σ (rand i)) as Htry. cbv zeta in Htry.
    unfold thread_step, bind.
    set (name := nextSuffix (draw (rand i))) in *. clearbody name.
    destruct Htry as [(Hv & Hn & ->)|(e & again & ->)].
    + change (cut_id ("videos/" +:+ name) None) with (Returned name None).
      simpl. split; [done|]. right. by exists name.
    + destruct again; simpl.
      * split; [right; by eexists|left; done].
      * split; [done|left; done].
  - simpl. split; [done|left; done].
Qed.

Lemma returned_ids_insert_same (ts : list alloc_thread) k t t' :
  ts !! k = Some t → returned_id t' = returned_id t →
  returned_ids (<[k := t']> ts) = returned_ids ts.
Proof.
  unfold returned_ids. revert k.
  induction ts as [|x ts IH]; intros [|k] Hk Heq; simplify_eq/=; [|].
  - by rewrite Heq.
  - by rewrite (IH k).
Qed.

Lemma returned_ids_insert_new (ts : list alloc_thread) k t t' id :
  ts !! k = Some t → returned_id t = None → returned_id t' = Some id →
  returned_ids (<[k := t']> ts) ≡ₚ id :: returned_ids ts.
Proof.
  unfold returned_ids. revert k.
  induction ts as [|x ts IH]; intros [|k] Hk Hn Hs; simplify_eq/=.
  - by rewrite Hn, Hs.
  - destruct (returned_id x); rewrite (IH k) by done; [|done].
    apply Permutation_swap.
Qed.

Lemma pool_step_inv σ0 c k : pool_inv σ0 c → pool_inv σ0 (pool_step c k).
Proof.
  destruct c as [σ ts]. intros (Hkept & Hok & Hnd & Hids).
  unfold pool_step. simpl in *.
  destruct (ts !! k) as [t|] eqn:Hk; [|done].
  pose proof (thread_step_outcome t σ (Forall_lookup_1 _ _ _ _ Hok Hk))
    as Hstep.
  destruct (thread_step t σ) as [[t' σ'] tr].
  destruct Hstep
    as [Hok' [[-> Heq]|(id & Hnone & Hsome & Hname & Hfree & ->)]].
  - split_and!; simpl; [done|by apply Forall_insert|..];
      by rewrite (returned_ids_insert_same _ _ t).
  - assert (Hperm := returned_ids_insert_new ts k t t' id Hk Hnone Hsome).
    assert (Hnew : id ∉ returned_ids ts).
    { intros Hin. rewrite Forall_forall in Hids.
      destruct (Hids _ Hin) as (_ & _ & Hdir). congruence. }
    split_and!; simpl.
    + etrans; [done|]. by apply insert_subseteq.
    + by apply Forall_insert.
    + rewrite Hperm. by constructor.
    + rewrite Hperm. constructor.
      * split_and!; [done| |by rewrite lookup_insert_eq].
        by eapply lookup_weaken_None.
      * eapply Forall_impl; [done|]. intros id' (? & ? & Hdir).
        split_and!; [done..|].
        rewrite lookup_insert_ne; [done|]. intros [= ->]. congruence.
Qed.

Lemma run_pool_inv σ0 sched c :
  pool_inv σ0 c → pool_inv σ0 (run_pool sched c).
Proof.
  unfold run_pool. revert c.
  induction sched as [|k sched IH]; intros c Hc; [done|].
  simpl. by apply IH, pool_step_inv.
Qed.

Lemma pool_inv_start σ0 rands : pool_inv σ0 (σ0, start <$> rands).
Proof.
  assert (Hnone : returned_ids (start <$> rands) = []).
  { unfold returned_ids. by induction rands. }
  split_and!; simpl; rewrite ?Hnone; [done| |constructor..].
  apply Forall_fmap, Forall_true. intros rand. by left.
Qed.

Lemma allocate_seq_cons rand rands σ :
  allocate_seq (rand :: rands) σ =
  let '(id, err2, σ', _) := allocate rand σ in
  let '(ids, σ'') := allocate_seq rands σ' in
  (match err2 with None => id :: ids | Some _ => ids end, σ'').
Proof. reflexivity. Qed.

(** Calls of [allocate] one after the other. *)
Lemma allocate_seq_outcome rands σ :
  nodes_kept σ (allocate_seq rands σ).2 ∧
  NoDup (allocate_seq rands σ).1 ∧
  Forall (λ id, slot_name id = true ∧
                σ !! ["videos"; id] = None ∧
                (allocate_seq rands σ).2 !! ["videos"; id] = Some Dir)
    (allocate_seq rands σ).1.
Proof.
  revert σ. induction rands as [|rand rands IH]; intros σ.
  { split_and!; [done|constructor..]. }
  rewrite allocate_seq_cons.
  destruct (allocate_outcome rand σ)
    as [(id & Hname & Hv & Hfree & ->)|(e & ->)].
  - specialize (IH (<[ ["videos"; id] := Dir ]> σ)).
    destruct (allocate_seq rands _) as [ids σ'']. simpl in *.
    destruct IH as (Hkept & Hnd & Hids).
    assert (Hσ : σ ⊆ <[ ["videos"; id] := Dir ]> σ)
      by (by apply insert_subseteq).
    split_and!.
    + by etrans.
    + constructor; [|done]. intros Hin. rewrite Forall_forall in Hids.
      destruct (Hids _ Hin) as (_ & Hn & _).
      by rewrite lookup_insert_eq in Hn.
    + constructor.
      * split_and!; [done..|].
        eapply lookup_weaken; [|done]. apply lookup_insert_eq.
      * eapply Forall_impl; [done|]. intros id' (? & Hn & ?).
        split_and!; [done| |done]. by eapply lookup_weaken_None.
  - specialize (IH σ). by destruct (allocate_seq rands σ) as [ids σ''].
Qed.

(** Two requests whose generators draw the same numbers: the one that
    calls first gets the name, the other finds it taken and gets the
    next. *)
Lemma pool_same_draws :
  returned_ids
    (run_pool [1; 0; 0] (store_empty, start <$> [counting 42; counting 42])).2
  = ["000000043"; "000000042"].
Proof. vm_compute. reflexivity. Qed.

(** C9. The ids of allocations are pairwise distinct and none of them
    was in the store before: for requests that run together, whatever
    the order the scheduler lets them make their calls in, and for
    calls of [allocate] one after the other. *)
Theorem allocated_ids_distinct σ0 rands sched :
  let pool := run_pool sched (σ0, start <$> rands) in
  let ids := (allocate_seq rands σ0).1 in
  (NoDup (returned_ids pool.2) ∧
   Forall (λ id, slot_name id = true ∧ node_at σ0 ["videos"; id] = None)
     (returned_ids pool.2)) ∧
  (NoDup ids ∧
   Forall (λ id, slot_name id = true ∧ node_at σ0 ["videos"; id] = None)
     ids).
Proof.
  intros pool ids. split.
  - destruct (run_pool_inv σ0 sched _ (pool_inv_start σ0 rands))
      as (_ & _ & Hnd & Hids).
    split; [done|]. eapply Forall_impl; [done|]. by intros id (? & ? & _).
  - destruct (allocate_seq_outcome rands σ0) as (_ & Hnd & Hids).
    split; [done|]. eapply Forall_impl; [done|]. by intros id (? & ? & _).
Qed.
End Allocate.

(** ** Trees of a file system, and loading from a fresh slot *)

Section WellFormed.
Implicit Types (σ : fs) (env : faults) (video : Video) (src : Reader).
Implicit Types (id : string) (p q d : list string) (n : node).

Lemma removelast_snoc d (x : string) : removelast (d ++ [x]) = d.
Proof. apply removelast_last. Qed.

Lemma removelast_ne p : p ≠ [] → removelast p ≠ p.
Proof.
  intros Hp Heq. apply (f_equal length) in Heq.
  destruct (exists_last Hp) as (d & x & ->).
  rewrite removelast_snoc, length_app in Heq. simpl in Heq. lia.
Qed.

Lemma node_at_insert σ p n q :
  p ≠ [] →
  node_at (<[p := n]> σ) q = if decide (q = p) then Some n else node_at σ q.
Proof.
  intros Hp. destruct (decide (q = p)) as [->|Hne].
  - destruct p; [done|]. simpl. by rewrite lookup_insert_eq.
  - destruct q; [done|]. simpl. by rewrite lookup_insert_ne.
Qed.

Lemma wf_empty : wf ∅.
Proof. apply map_Forall_empty. Qed.

(** A node put into a directory that is there, and not in the place of
    a directory, leaves a tree a tree. *)
Lemma wf_insert σ p n :
  wf σ → p ≠ [] → node_at σ (removelast p) = Some Dir →
  (σ !! p = Some Dir → n = Dir) →
  wf (<[p := n]> σ).
Proof.
  intros Hwf Hp Hparent Hdir q x Hq.
  destruct (decide (q = p)) as [->|Hne].
  - split; [done|]. rewrite node_at_insert by done.
    destruct (decide _) as [Heq|]; [|done]. by apply removelast_ne in Heq.
  - rewrite lookup_insert_ne in Hq by done.
    destruct (Hwf q x Hq) as [Hq0 Hqp]. split; [done|].
    rewrite node_at_insert by done.
    destruct (decide _) as [Heq|]; [|done].
    rewrite Heq in Hqp. destruct p; [done|]. simpl in Hqp.
    by rewrite (Hdir Hqp).
Qed.

(** [saveVideo] and [allocate] leave a tree a tree. *)
Lemma saveVideo_wf env video src σ :
  wf σ → wf (saveVideo env video src σ).1.2.
Proof.
  intros Hwf. pose proof (saveVideo_outcome env video src σ) as Hout.
  inversion Hout as [e He|d e1 p Hd Hdir Hp|d p m Hd Hdir Hp|
                     d p m t Hd Hdir Hp _ _ Hm];
    simpl; [done|..].
  - apply wf_insert; [done|by destruct d| |done].
    unfold p. by rewrite removelast_snoc.
  - apply wf_insert; [done|by destruct d| |done].
    unfold p. by rewrite removelast_snoc.
  - apply wf_insert; [|by destruct d| |].
    + apply wf_insert; [done|by destruct d| |done].
      unfold p. by rewrite removelast_snoc.
    + unfold m. rewrite removelast_snoc.
      apply (dirs_kept_insert σ p); [|done]. unfold p.
      by rewrite node_at_snoc.
    + rewrite lookup_insert_ne by (by intros [=]%(inj (app d))). done.
Qed.

Lemma allocate_wf rand σ : wf σ → wf (allocate rand σ).1.2.
Proof.
  intros Hwf.
  destruct (allocate_outcome rand σ)
    as [(id & Hname & Hv & Hfree & ->)|(e & ->)]; [|done].
  simpl. apply wf_insert; [done..| |by rewrite Hfree].
  exact Hv.
Qed.

(** C4. [loadVideo] of an id for which there is no metadata record
    fails, whatever string the id is; and [loadVideo] of the id of a
    fresh allocation, with no save in between, finds no record and fails
    with the error of a file that is not there. *)
Theorem load_without_metadata σ id :
  (has_metadata σ id = false →
   ∃ op e,
     loadVideo σ id = (None, Some (PathError op (metadata_path id) e))) ∧
  (∀ rand σ0 tr,
     wf σ0 → allocate rand σ0 = ((id, None), σ, tr) →
     has_metadata σ id = false ∧
     loadVideo σ id
     = (None, Some (PathError "open" (metadata_path id) ENOENT))).
Proof.
  split.
  - intros Hno. pose proof (has_metadata_load σ id) as Hload.
    by rewrite Hno in Hload.
  - intros rand σ0 tr Hwf Halloc.
    destruct (allocate_outcome rand σ0)
      as [(id' & Hname & Hv & Hfree & He)|(e & He)];
      rewrite He in Halloc; [|done]. injection Halloc as -> <- <-.
    assert (Hload :
      loadVideo (<[ ["videos"; id] := Dir ]> σ0) id
      = (None, Some (PathError "open" (metadata_path id) ENOENT))).
    { rewrite (loadVideo_slot _ _ ["videos"; id]).
      - rewrite lookup_insert_ne by done.
        destruct (σ0 !! (["videos"; id] ++ ["videodata.txt"]))
          as [n|] eqn:Hn; [|done].
        destruct (Hwf _ _ Hn) as [_ Hparent]. simpl in Hparent. congruence.
      - rewrite resolve_slot_name, lookup_insert_ne by done. by rewrite Hv.
      - simpl. by rewrite lookup_insert_eq. }
    split; [|done].
    pose proof (has_metadata_load (<[ ["videos"; id] := Dir ]> σ0) id) as H.
    destruct (has_metadata _ id); [|done].
    destruct H as [title H]. congruence.
Qed.

Lemma load_without_metadata_witness :
  (∃ op e, loadVideo store_a "a"
           = (None, Some (PathError op (metadata_path "a") e))) ∧
  has_metadata (allocate (always 42) store_empty).1.2 "000000042" = false ∧
  loadVideo (allocate (always 42) store_empty).1.2 "000000042"
  = (None, Some (PathError "open" (metadata_path "000000042") ENOENT)).
Proof.
  split.
  - apply (load_without_metadata store_a "a"). reflexivity.
  - apply (proj2 (load_without_metadata _ "000000042") (always 42)
                   store_empty (allocate (always 42) store_empty).2).
    + apply wf_insert; [apply wf_empty|done..].
    + assert (H : (allocate (always 42) store_empty).1.1
                  = ("000000042", None)) by (vm_compute; reflexivity).
      destruct (allocate (always 42) store_empty) as [[r σ] tr].
      simpl in *. by subst.
Defined.
End WellFormed.

(** ** The catalog *)

Section Catalog.
Implicit Types (σ : fs) (f : FileInfo) (id : string).

Lemma catalog_loop σ (fis : list FileInfo) (acc : list (option Video)) :
  fold_left
    (λ availableVideos f,
       let '(video, _) := loadVideo σ (Name f) in
       availableVideos ++ [video]) fis acc
  = acc ++ map (catalog_entry σ) fis.
Proof.
  revert acc. induction fis as [|f fis IH]; intros acc; simpl.
  - by rewrite app_nil_r.
  - rewrite IH. unfold catalog_entry at 2.
    destruct (loadVideo σ (Name f)). by rewrite <- app_assoc.
Qed.

(** The loop of [getAvailableVideos] appends one entry per name of the
    listing, in the order of the listing. *)
Lemma getAvailableVideos_entries σ :
  getAvailableVideos σ =
  match (ReadDir σ "videos").2 with
  | Some e => ([], Some e)
  | None => (map (catalog_entry σ) (ReadDir σ "videos").1, None)
  end.
Proof.
  unfold getAvailableVideos.
  destruct (ReadDir σ "videos") as [fis [e|]]; simpl; [done|].
  by rewrite catalog_loop.
Qed.

(** An entry is a video where the record is there, and nil where it is
    not. *)
Lemma catalog_entry_metadata σ f :
  if has_metadata σ (Name f)
  then ∃ title, catalog_entry σ f = Some {| Id := Name f; Title := title |}
  else catalog_entry σ f = None.
Proof.
  unfold catalog_entry. pose proof (has_metadata_load σ (Name f)) as H.
  destruct (has_metadata σ (Name f)).
  - destruct H as [title ->]. by exists title.
  - by destruct H as (op & e & ->).
Qed.

(** C2. The catalog of a store with a slot [a] that was allocated and
    never saved to and a slot [b] that was saved: [a] has no metadata
    record, and [getAvailableVideos] returns two entries, a nil pointer
    for [a] before the video of [b]. *)
Theorem enumerate_keeps_failed_slot :
  has_metadata store_ab "a" = false ∧
  has_metadata store_ab "b" = true ∧
  getAvailableVideos store_ab
  = ([None; Some {| Id := "b"; Title := "My Trip" |}], None).
Proof. vm_compute. done. Qed.

(** C7. [getAvailableVideos] returns the error of the listing of
    [videos], and no other: it fails exactly when [ioutil.ReadDir]
    fails, and when the listing succeeds it returns nil as its error
    and one entry per name listed, whether [loadVideo] of the name
    failed or not. *)
Theorem enumerate_fails_iff_listing_fails σ :
  (getAvailableVideos σ).2 = (ReadDir σ "videos").2 ∧
  (is_Some (getAvailableVideos σ).2 ↔ is_Some (ReadDir σ "videos").2) ∧
  match (ReadDir σ "videos").2 with
  | Some e => getAvailableVideos σ = ([], Some e)
  | None =>
      (getAvailableVideos σ).2 = None ∧
      length (getAvailableVideos σ).1 = length (ReadDir σ "videos").1
  end.
Proof.
  rewrite getAvailableVideos_entries.
  destruct (ReadDir σ "videos") as [fis [e|]]; simpl; [done|].
  by rewrite length_map.
Qed.
End Catalog.

(** ** A request alone is a call of [allocate] *)

Section Alone.
Implicit Types (σ : fs) (rand : nat → attempt).

Lemma thread_run_returned k id err2 σ :
  thread_run k (Returned id err2) σ = (Returned id err2, σ, []).
Proof.
  induction k as [|k IH]; [done|].
  cbn [thread_run thread_step]. unfold bind, ret. by rewrite IH.
Qed.

Local Opaque TempDir_try.

Lemma thread_run_loop n rand i err σ :
  thread_run (S n) (Trying rand n i err) σ =
  let '((name, err'), σ', tr) := TempDir_loop n rand "videos/" "" i err σ in
  (cut_id name err', σ', tr).
Proof.
  revert i err σ. induction n as [|n IH]; intros i err σ.
  { cbn [thread_run thread_step TempDir_loop]. unfold bind, ret. done. }
  change (thread_run (S (S n)) (Trying rand (S n) i err) σ)
    with (bind (thread_step (Trying rand (S n) i err))
            (thread_run (S n)) σ).
  cbn [thread_step TempDir_loop]. unfold bind.
  destruct (TempDir_try "videos/" "" (rand i) σ)
    as [[[[name err'] again] σ1] t1].
  destruct again.
  - unfold ret at 1. rewrite IH.
    destruct (TempDir_loop n rand "videos/" "" (S i) err' σ1)
      as [[[name' err''] σ2] t2].
    by rewrite app_nil_r.
  - unfold ret. unfold cut_id.
    destruct err'; by rewrite thread_run_returned, !app_nil_r.
Qed.

(** The calls of a request with nothing between them are one call of
    [allocate]. *)
Lemma thread_run_alone rand σ :
  thread_run (S (100 * 100)) (start rand) σ =
  let '((id, err2), σ', tr) := allocate rand σ in
  (Returned id err2, σ', tr).
Proof.
  unfold start. rewrite thread_run_loop. unfold allocate, TempDir, bind.
  destruct (TempDir_loop _ rand "videos/" "" 0 None σ)
    as [[[name [e|]] σ'] tr]; unfold ret, cut_id; by rewrite app_nil_r.
Qed.
End Alone.

(** ** The listing of [videos] and the catalog *)

Section Listing.
Implicit Types (σ : fs) (f : FileInfo) (id : string) (d k : list string).

Lemma child_name_snoc d k (n : string) :
  child_name d k = Some n ↔ k = d ++ [n].
Proof.
  revert k. induction d as [|x d IH]; intros k.
  - destruct k as [|y [|z k]]; simpl; [done| |done].
    split; [by intros [= ->]|by intros [= ->]].
  - destruct k as [|y k]; simpl; [done|].
    destruct (decide (x = y)) as [->|Hne].
    + rewrite IH. split; [by intros ->|by intros [= ->]].
    + split; [done|]. by intros [= -> _].
Qed.

(** The entries of a directory are the nodes right below it. *)
Lemma elem_of_dir_entries σ d f :
  f ∈ dir_entries σ d ↔
  ∃ n, σ !! (d ++ [Name f]) = Some n ∧ IsDir f = bool_decide (n = Dir).
Proof.
  unfold dir_entries. rewrite merge_sort_Permutation, list_elem_of_omap.
  split.
  - intros ([k n] & Hin & Hentry). apply elem_of_map_to_list in Hin.
    unfold entry_of in Hentry. simpl in Hentry.
    destruct (child_name d k) as [x|] eqn:Hk; [|done].
    apply child_name_snoc in Hk as ->. injection Hentry as <-.
    by exists n.
  - intros (n & Hn & Hdir). exists (d ++ [Name f], n). split.
    + by apply elem_of_map_to_list.
    + unfold entry_of. simpl.
      rewrite (proj2 (child_name_snoc d _ (Name f)) eq_refl).
      destruct f as [name isdir]. simpl in *. by rewrite Hdir.
Qed.

Lemma names_of_entries d (l : list (list string * node)) :
  Name <$> omap (entry_of d) l = omap (child_name d) l.*1.
Proof.
  induction l as [|[k n] l IH]; csimpl; [done|]. unfold entry_of at 1.
  simpl. destruct (child_name d k); csimpl; by rewrite IH.
Qed.

Lemma NoDup_omap_inj {A B} (g : A → option B) (l : list A) :
  (∀ x y z, g x = Some z → g y = Some z → x = y) →
  NoDup l → NoDup (omap g l).
Proof.
  intros Hinj. induction 1 as [|x l Hx Hl IH]; simpl; [constructor|].
  destruct (g x) as [z|] eqn:Hz; [|done]. constructor; [|done].
  intros (y & Hy & Hgy)%list_elem_of_omap.
  by rewrite (Hinj _ _ _ Hz Hgy) in Hx.
Qed.

(** No name comes twice in the listing of a directory. *)
Lemma dir_entries_NoDup σ d : NoDup (Name <$> dir_entries σ d).
Proof.
  unfold dir_entries. rewrite merge_sort_Permutation, names_of_entries.
  apply NoDup_omap_inj; [|apply NoDup_fst_map_to_list].
  intros x y z Hx%child_name_snoc Hy%child_name_snoc. congruence.
Qed.

Lemma ReadDir_videos σ :
  σ !! ["videos"] = Some Dir →
  ReadDir σ "videos" = (dir_entries σ ["videos"], None).
Proof.
  intros Hv. unfold ReadDir.
  change (resolve σ "videos") with (inr (A:=errno) ["videos"]).
  cbv iota beta. simpl. by rewrite Hv.
Qed.

Lemma ReadDir_no_videos σ :
  σ !! ["videos"] ≠ Some Dir → ∃ e, ReadDir σ "videos" = ([], Some e).
Proof.
  intros Hv. unfold ReadDir.
  change (resolve σ "videos") with (inr (A:=errno) ["videos"]).
  cbv iota beta. simpl. destruct (σ !! ["videos"]) as [[]|]; [done|..];
    by eexists.
Qed.

Lemma listed_NoDup σ : NoDup (listed σ).
Proof.
  unfold listed. destruct (decide (σ !! ["videos"] = Some Dir)) as [Hv|Hv].
  - rewrite (ReadDir_videos σ Hv). apply dir_entries_NoDup.
  - destruct (ReadDir_no_videos σ Hv) as [e ->]. constructor.
Qed.

Lemma elem_of_listed σ id :
  σ !! ["videos"] = Some Dir →
  id ∈ listed σ ↔ is_Some (σ !! ["videos"; id]).
Proof.
  intros Hv. unfold listed. rewrite (ReadDir_videos σ Hv). simpl.
  rewrite list_elem_of_fmap. split.
  - intros (f & -> & (n & Hn & _)%elem_of_dir_entries). by exists n.
  - intros [n Hn]. exists (mkFileInfo id (bool_decide (n = Dir))).
    split; [done|]. apply elem_of_dir_entries. by exists n.
Qed.

Lemma map_is_fmap {A B} (g : A → B) (l : list A) : map g l = g <$> l.
Proof. induction l as [|x l IH]; [done|]. simpl. by rewrite IH. Qed.

(** The catalog is [loadVideo] of the names listed, one after the
    other. *)
Lemma catalog_of_listed σ :
  (getAvailableVideos σ).1 = (λ id, (loadVideo σ id).1) <$> listed σ.
Proof.
  rewrite getAvailableVideos_entries. unfold listed.
  destruct (decide (σ !! ["videos"] = Some Dir)) as [Hv|Hv].
  - rewrite (ReadDir_videos σ Hv). simpl.
    by rewrite map_is_fmap, <- list_fmap_compose.
  - by destruct (ReadDir_no_videos σ Hv) as [e ->].
Qed.

(** A video [loadVideo] returns carries the id it was asked for, and
    comes with no error. *)
Lemma loadVideo_Some σ id v :
  (loadVideo σ id).1 = Some v → loadVideo σ id = (Some v, None) ∧ Id v = id.
Proof.
  unfold loadVideo. destruct (ReadFile σ _) as [data [e|]]; simpl; [done|].
  by intros [= <-].
Qed.

(** X1. Where [videos] is a directory, the videos of the catalog are
    exactly the videos [loadVideo] returns for the names of the nodes in
    [videos]: each carries the name as its id and the bytes of its
    record as its title, and every name with a record is there. *)
Theorem catalog_exact σ v :
  σ !! ["videos"] = Some Dir →
  Some v ∈ (getAvailableVideos σ).1 ↔
  is_Some (σ !! ["videos"; Id v]) ∧ loadVideo σ (Id v) = (Some v, None).
Proof.
  intros Hv. rewrite catalog_of_listed, list_elem_of_fmap. split.
  - intros (id & Hload & Hin). symmetry in Hload.
    apply loadVideo_Some in Hload as [Hload <-].
    split; [|done]. by apply elem_of_listed.
  - intros [Hin Hload]. exists (Id v). split; [by rewrite Hload|].
    by apply elem_of_listed.
Qed.

Lemma catalog_exact_witness :
  Some {| Id := "b"; Title := "My Trip" |} ∈ (getAvailableVideos store_ab).1 ↔
  is_Some (store_ab !! ["videos"; "b"]) ∧
  loadVideo store_ab "b" = (Some {| Id := "b"; Title := "My Trip" |}, None).
Proof.
  apply (catalog_exact store_ab {| Id := "b"; Title := "My Trip" |}).
  vm_compute. reflexivity.
Defined.

(** X2. No video comes twice in the catalog: two entries that are
    videos of the same id are one entry. *)
Theorem catalog_no_repeats σ i j v w :
  (getAvailableVideos σ).1 !! i = Some (Some v) →
  (getAvailableVideos σ).1 !! j = Some (Some w) →
  Id v = Id w →
  i = j.
Proof.
  rewrite catalog_of_listed, !list_lookup_fmap.
  destruct (listed σ !! i) as [a|] eqn:Hi; [|done].
  destruct (listed σ !! j) as [b|] eqn:Hj; [|done]. simpl.
  intros [= [_ Ha]%loadVideo_Some] [= [_ Hb]%loadVideo_Some] Heq.
  apply (NoDup_lookup (listed σ) i j a); [apply listed_NoDup|done|].
  congruence.
Qed.

Lemma catalog_no_repeats_witness :
  (getAvailableVideos store_ab).1 !! 1
  = Some (Some {| Id := "b"; Title := "My Trip" |}) ∧ 1 = 1.
Proof.
  assert (H : (getAvailableVideos store_ab).1 !! 1
              = Some (Some {| Id := "b"; Title := "My Trip" |}))
    by (vm_compute; reflexivity).
  split; [done|].
  exact (catalog_no_repeats store_ab 1 1 _ _ H H eq_refl).
Defined.
End Listing.

(** ** What an error of [saveVideo] leaves, and saving to a fresh slot *)

Section SaveRuns.
Implicit Types (σ : fs) (env : faults) (video : Video) (src : Reader).
Implicit Types (id f : string) (d : list string).



(** The state after the two files of a slot were written. *)
Lemma written_slot_reads σ d id (bytes title : string) :
  resolve σ ("./videos/" +:+ id) = inr d →
  node_at σ d = Some Dir →
  σ !! (d ++ ["video.mp4"]) ≠ Some Dir →
  σ !! (d ++ ["videodata.txt"]) ≠ Some Dir →
  let σ' := <[d ++ ["videodata.txt"] := File title]>
              (<[d ++ ["video.mp4"] := File bytes]> σ) in
  loadVideo σ' id = (Some {| Id := id; Title := title |}, None) ∧
  ReadFile σ' (payload_path id) = (bytes, None).
Proof.
  intros Hd Hdir Hp Hm σ'.
  assert (Hk : dirs_kept σ σ').
  { intros q Hq. unfold σ'.
    apply dirs_kept_insert;
      [rewrite node_at_snoc, lookup_insert_ne;
         [done|by intros [=]%(inj (app d))]|].
    apply dirs_kept_insert; [by rewrite node_at_snoc|done]. }
  split.
  - rewrite (loadVideo_slot _ _ d);
      [|by eapply resolve_dirs_kept|by apply Hk].
    unfold σ'. by rewrite lookup_insert_eq.
  - rewrite payload_path_eq, (ReadFile_in_dir _ _ _ d);
      [|done|by eapply resolve_dirs_kept|by apply Hk].
    unfold σ'. rewrite lookup_insert_ne by (by intros [=]%(inj (app d))).
    by rewrite lookup_insert_eq.
Qed.



(** [saveVideo] to a slot that holds no directory in the place of its
    two files, when no call is refused and the upload arrives whole. *)
Lemma saveVideo_runs env video src σ d :
  resolve σ ("./videos/" +:+ Id video) = inr d →
  node_at σ d = Some Dir →
  σ !! (d ++ ["video.mp4"]) ≠ Some Dir →
  σ !! (d ++ ["videodata.txt"]) ≠ Some Dir →
  create_video_fault env = None →
  create_data_fault env = None →
  copy_error env src = None →
  saveVideo env video src σ =
    ((accept (write_fault env) (Title video)).2,
     <[d ++ ["videodata.txt"] :=
         File (accept (write_fault env) (Title video)).1]>
       (<[d ++ ["video.mp4"] := File (r_bytes src)]> σ),
     [EvCreate (d ++ ["video.mp4"]);
      EvWrite (d ++ ["video.mp4"]) (r_bytes src);
      EvCreate (d ++ ["videodata.txt"]);
      EvWrite (d ++ ["videodata.txt"])
        (accept (write_fault env) (Title video)).1]).
Proof.
  intros Hd Hdir Hp Hm Hcv Hcd Hce.
  unfold saveVideo. set (dir := "./videos/" +:+ Id video) in *.
  set (p := d ++ ["video.mp4"]) in *.
  set (m := d ++ ["videodata.txt"]) in *.
  assert (Hpm : p ≠ m) by (intros [=]%(inj (app d))).
  unfold bind at 1. rewrite (Create_file _ _ _ _ d), Hcv by done. fold p.
  unfold bind at 1, Copy, bind at 1, file_Write, file_data.
  rewrite lookup_insert_eq, insert_insert_eq.
  change ("" +:+ ?x) with x.
  pose proof (accept_all (copy_fault env) (r_bytes src)) as Hall.
  unfold copy_error in Hce.
  destruct (accept (copy_fault env) (r_bytes src)).2; [done|].
  simpl. rewrite Hce, Hall by done. simpl.
  set (σ2 := <[p := File (r_bytes src)]> σ).
  assert (Hk : dirs_kept σ σ2).
  { apply dirs_kept_insert. unfold p. by rewrite node_at_snoc. }
  unfold bind at 1.
  rewrite (Create_file _ _ _ _ d), Hcd;
    [|done|by eapply resolve_dirs_kept|by apply Hk|].
  2:{ fold m. unfold σ2. by rewrite lookup_insert_ne. }
  fold m. simpl. unfold file_data.
  by rewrite lookup_insert_eq, insert_insert_eq.
Qed.
End SaveRuns.

(** ** The handlers *)

Section Handlers.
Implicit Types (σ : fs) (env : faults) (rand : nat → attempt).
Implicit Types (req : upload) (src : Reader) (id f : string).

(** X4. [getErrorMessage] returns the empty string exactly when the
    first value of [error] is neither [notfound] nor [misc]; so it does
    for a query without the key. *)
Theorem getErrorMessage_empty (query : Values) :
  (getErrorMessage query = "" ↔
   Values_Get query "error" ≠ "notfound" ∧
   Values_Get query "error" ≠ "misc") ∧
  match query !! "error" with
  | None => getErrorMessage query = ""
  | Some _ => True
  end.
Proof.
  assert (Hne : ∀ a b : string, a ≠ "" → a +:+ b ≠ "").
  { intros [|c a] b; [done|]. by rewrite string_app_cons. }
  split.
  - unfold getErrorMessage.
    destruct (decide (Values_Get query "error" = "notfound")) as [He|He].
    { split; [|by intros [? _]]. intros H. by apply Hne in H. }
    destruct (decide (Values_Get query "error" = "misc")) as [Hm|Hm].
    { split; [|by intros [_ ?]]. intros H. by apply Hne in H. }
    done.
  - unfold getErrorMessage, Values_Get.
    by destruct (query !! "error").
Qed.

(** X5. [watchHandler] renders the watch page in every case: with the
    video of the record where the id has one, and with a nil video,
    after the redirect to the not-found page, where it has none. *)
Theorem watch_responses σ id :
  if has_metadata σ id
  then ∃ title,
         ReadFile σ (metadata_path id) = (title, None) ∧
         watchHandler σ ("/watch/" +:+ id)
         = [Render "watch" (WatchPage (Some {| Id := id; Title := title |}))]
  else watchHandler σ ("/watch/" +:+ id)
       = [Redirect ("/?error=notfound&id=" +:+ id) StatusSeeOther;
          Render "watch" (WatchPage None)].
Proof.
  unfold watchHandler.
  change (string_drop (String.length "/watch/") ("/watch/" +:+ id)) with id.
  pose proof (has_metadata_load σ id) as Hload.
  destruct (has_metadata σ id).
  - destruct Hload as [title Hload]. exists title. rewrite Hload.
    split; [|done]. revert Hload. unfold loadVideo.
    change ("videos/" +:+ id +:+ "/videodata.txt") with (metadata_path id).
    destruct (ReadFile σ (metadata_path id)) as [data [e|]]; [done|].
    by intros [= ->].
  - by destruct Hload as (op & e & ->).
Qed.

(** X6. The home page: where [videos] is a directory, one call of
    [renderTemplate] with the catalog and the message of the query;
    where it is not, no page but the error of the listing as a 500 and
    a panic, [open videos: no such file or directory] where nothing is
    there. *)
Theorem home_responses σ (query : Values) :
  match σ !! ["videos"] with
  | Some Dir =>
      internalServerErrorHandler (homeHandler σ query)
      = [Render "home"
           (HomePage ((λ id, (loadVideo σ id).1) <$> listed σ)
              (getErrorMessage query))]
  | Some (File _) =>
      ∃ e, internalServerErrorHandler (homeHandler σ query)
           = [HttpError (Error e) StatusInternalServerError; Panic e]
  | None =>
      internalServerErrorHandler (homeHandler σ query)
      = [HttpError "open videos: no such file or directory"
           StatusInternalServerError;
         Panic (PathError "open" "videos" ENOENT)]
  end.
Proof.
  pose proof (catalog_of_listed σ) as Hcat.
  unfold internalServerErrorHandler, homeHandler.
  rewrite getAvailableVideos_entries in *. unfold ReadDir in *.
  change (resolve σ "videos") with (inr (A:=errno) ["videos"]) in *.
  cbv iota beta in *. simpl in *.
  destruct (σ !! ["videos"]) as [[|data]|]; simpl in *.
  - by rewrite Hcat.
  - by exists (PathError "readdirent" "videos" ENOTDIR).
  - done.
Qed.

Lemma fresh_slot_empty σ id f :
  wf σ → σ !! ["videos"; id] = None → σ !! ["videos"; id; f] = None.
Proof.
  intros Hwf Hfree. destruct (σ !! ["videos"; id; f]) as [n|] eqn:Hn; [|done].
  destruct (Hwf _ _ Hn) as [_ Hparent]. simpl in Hparent. congruence.
Qed.

(** The slot a call of [allocate] made. *)
Lemma allocated_slot σ id :
  slot_name id = true → σ !! ["videos"] = Some Dir →
  resolve (<[ ["videos"; id] := Dir ]> σ) ("./videos/" +:+ id)
  = inr ["videos"; id] ∧
  node_at (<[ ["videos"; id] := Dir ]> σ) ["videos"; id] = Some Dir.
Proof.
  intros Hname Hv. split.
  - rewrite resolve_slot_name, lookup_insert_ne by done. by rewrite Hv.
  - simpl. by rewrite lookup_insert_eq.
Qed.

(** X7. [uploadHandler] returns an error only with nothing done: no
    response, no change to the tree.  Where it returns nil it has made
    a new slot, which stays whatever the save did, and it has sent one
    redirect, to the watch page of the slot or to [/?error=fu]. *)
Theorem upload_outcome rand env req σ :
  let '((err, resp), σ', tr) := uploadHandler rand env req σ in
  match err with
  | Some _ => resp = [] ∧ σ' = σ ∧ tr = []
  | None =>
      ∃ id, slot_name id = true ∧
            σ !! ["videos"; id] = None ∧
            σ' !! ["videos"; id] = Some Dir ∧
            (resp = [Redirect "/?error=fu" StatusSeeOther] ∨
             resp = [Redirect ("/watch/" +:+ id) StatusSeeOther])
  end.
Proof.
  unfold uploadHandler.
  destruct (form_error req) as [e|]; [done|].
  destruct (form_file req) as [err1|src]; [done|].
  unfold bind at 1.
  destruct (allocate_outcome rand σ)
    as [(id & Hname & Hv & Hfree & ->)|(e & ->)]; [|done].
  unfold bind.
  set (σ1 := <[ ["videos"; id] := Dir ]> σ).
  set (video := {| Id := id; Title := form_title req |}).
  pose proof (saveVideo_frame env video src σ1 ["videos"; id]) as Hframe.
  destruct (saveVideo env video src σ1) as [[err3 σ2] t2]. simpl in Hframe.
  assert (Hkept : σ2 !! ["videos"; id] = Some Dir).
  { rewrite Hframe; [apply lookup_insert_eq|]. intros d.
    change (Id video) with id. unfold σ1.
    destruct (allocated_slot σ id Hname Hv) as [-> _]. by intros [= <-]. }
  destruct err3; simpl; exists id; eauto.
Qed.

(** [saveVideo] to a slot with nothing in the place of its two files
    adds to the tree and changes nothing that is there. *)
Lemma saveVideo_adds env (video : Video) src σ d :
  resolve σ ("./videos/" +:+ Id video) = inr d →
  σ !! (d ++ ["video.mp4"]) = None →
  σ !! (d ++ ["videodata.txt"]) = None →
  nodes_kept σ (saveVideo env video src σ).1.2.
Proof.
  intros Hd Hp Hm. unfold nodes_kept.
  pose proof (saveVideo_outcome env video src σ) as Hout.
  inversion Hout as [e He|d' e1 p Hd' Hdir|d' p m Hd' Hdir|
                     d' p m t Hd' Hdir]; simpl; [done|..];
    rewrite Hd in Hd'; injection Hd' as <-.
  - by apply insert_subseteq.
  - by apply insert_subseteq.
  - etrans; [by apply (insert_subseteq σ p)|].
    apply insert_subseteq. rewrite lookup_insert_ne; [done|].
    by intros [=]%(inj (app d)).
Qed.

(** A fresh slot has no record: [loadVideo] of its id fails. *)
Lemma loadVideo_fresh_slot σ id :
  wf σ → slot_name id = true → σ !! ["videos"] = Some Dir →
  σ !! ["videos"; id] = None →
  loadVideo (<[ ["videos"; id] := Dir ]> σ) id
  = (None, Some (PathError "open" (metadata_path id) ENOENT)).
Proof.
  intros Hwf Hname Hv Hfree.
  destruct (allocated_slot σ id Hname Hv) as [Hd Hdir].
  rewrite (loadVideo_slot _ _ ["videos"; id]) by done.
  rewrite lookup_insert_ne by done. simpl.
  by rewrite (fresh_slot_empty σ id "videodata.txt").
Qed.

(** X8. An upload that arrives whole, on a system that refuses
    nothing, once its slot is allocated: [uploadHandler] redirects to
    the watch page of the new id, [watchHandler] on that path renders
    the video with the title of the form, and the payload holds the
    bytes of the upload. *)
Theorem upload_then_watch rand req src σ :
  wf σ →
  form_error req = None →
  form_file req = inr src →
  r_err src = None →
  (allocate rand σ).1.1.2 = None →
  ∃ id,
    let σ' := (uploadHandler rand no_faults req σ).1.2 in
    (uploadHandler rand no_faults req σ).1.1
    = (None, [Redirect ("/watch/" +:+ id) StatusSeeOther]) ∧
    watchHandler σ' ("/watch/" +:+ id)
    = [Render "watch"
         (WatchPage (Some {| Id := id; Title := form_title req |}))] ∧
    ReadFile σ' (payload_path id) = (r_bytes src, None).
Proof.
  intros Hwf Hform Hfile Herr Halloc.
  destruct (allocate_outcome rand σ)
    as [(id & Hname & Hv & Hfree & He)|(e & He)];
    rewrite He in Halloc; [|done]. clear Halloc.
  exists id.
  destruct (allocated_slot σ id Hname Hv) as [Hd Hdir].
  set (σ1 := <[ ["videos"; id] := Dir ]> σ) in *.
  assert (Hfresh : ∀ f, σ1 !! (["videos"; id] ++ [f]) = None).
  { intros f. unfold σ1. rewrite lookup_insert_ne by done.
    by apply fresh_slot_empty. }
  set (σ2 := <[ ["videos"; id] ++ ["videodata.txt"] :=
                  File (form_title req) ]>
               (<[ ["videos"; id] ++ ["video.mp4"] :=
                     File (r_bytes src) ]> σ1)).
  assert (Hup : ∃ tr, uploadHandler rand no_faults req σ =
    ((None, [Redirect ("/watch/" +:+ id) StatusSeeOther]), σ2, tr)).
  { unfold uploadHandler. rewrite Hform, Hfile. unfold bind. rewrite He.
    rewrite (saveVideo_runs no_faults _ src σ1 ["videos"; id]);
      [|done|done|by rewrite Hfresh..|done|done|done].
    by eexists. }
  destruct Hup as [tr ->]. cbv zeta. cbn [fst snd].
  destruct (written_slot_reads σ1 ["videos"; id] id (r_bytes src)
              (form_title req)) as [Hload Hread];
    [done|done|by rewrite Hfresh..|].
  fold σ2 in Hload, Hread.
  split_and!; [done| |exact Hread].
  unfold watchHandler.
  change (string_drop (String.length "/watch/") ("/watch/" +:+ id)) with id.
  by rewrite Hload.
Qed.

Lemma upload_then_watch_witness :
  let req := mkUpload None (inr whole) "My Trip" in
  ∃ id,
    let σ' := (uploadHandler (always 42) no_faults req store_empty).1.2 in
    (uploadHandler (always 42) no_faults req store_empty).1.1
    = (None, [Redirect ("/watch/" +:+ id) StatusSeeOther]) ∧
    watchHandler σ' ("/watch/" +:+ id)
    = [Render "watch" (WatchPage (Some {| Id := id; Title := "My Trip" |}))] ∧
    ReadFile σ' (payload_path id) = ("bytes", None).
Proof.
  intros req.
  apply (upload_then_watch (always 42) req whole store_empty).
  - apply wf_insert; [apply wf_empty|done..].
  - reflexivity.
  - reflexivity.
  - reflexivity.
  - vm_compute. reflexivity.
Defined.

(** X9. An upload never changes nor removes what is in the store: every
    node of the tree before is in the tree after, as it was, and the
    tree stays a tree, whatever the upload met. *)
Theorem upload_keeps_store rand env req σ :
  wf σ →
  nodes_kept σ (uploadHandler rand env req σ).1.2 ∧
  wf (uploadHandler rand env req σ).1.2.
Proof.
  intros Hwf. unfold uploadHandler, nodes_kept.
  destruct (form_error req) as [e|]; [done|].
  destruct (form_file req) as [err1|src]; [done|].
  unfold bind.
  destruct (allocate_outcome rand σ)
    as [(id & Hname & Hv & Hfree & ->)|(e & ->)]; [|done].
  set (σ1 := <[ ["videos"; id] := Dir ]> σ).
  set (video := {| Id := id; Title := form_title req |}).
  assert (Hwf1 : wf σ1).
  { apply wf_insert; [done..| |by rewrite Hfree]. exact Hv. }
  assert (Hadds : nodes_kept σ1 (saveVideo env video src σ1).1.2).
  { destruct (allocated_slot σ id Hname Hv) as [Hd _].
    apply (saveVideo_adds _ _ _ _ ["videos"; id]); [done|..];
      unfold σ1; rewrite lookup_insert_ne by done;
      by apply fresh_slot_empty. }
  pose proof (saveVideo_wf env video src σ1 Hwf1) as Hwf2.
  destruct (saveVideo env video src σ1) as [[err3 σ2] t2]. simpl in *.
  assert (σ ⊆ σ2).
  { etrans; [|exact Hadds]. by apply insert_subseteq. }
  by destruct err3.
Qed.

Lemma upload_keeps_store_witness :
  let req := mkUpload None (inr broken) "My Trip" in
  nodes_kept store_ab (uploadHandler (always 42) disk_full req store_ab).1.2 ∧
  wf (uploadHandler (always 42) disk_full req store_ab).1.2.
Proof.
  intros req. apply (upload_keeps_store (always 42) disk_full req store_ab).
  apply saveVideo_wf.
  apply wf_insert; [|done..].
  apply wf_insert; [|done..].
  apply wf_insert; [apply wf_empty|done..].
Defined.

(** X10. An upload whose first [os.Create] is refused answers
    [/?error=fu] and leaves its slot behind, empty: the catalog has a
    nil entry from then on. *)
Theorem refused_upload_shows_nil rand env req src σ e :
  wf σ →
  form_error req = None →
  form_file req = inr src →
  create_video_fault env = Some e →
  (allocate rand σ).1.1.2 = None →
  (uploadHandler rand env req σ).1.1
  = (None, [Redirect "/?error=fu" StatusSeeOther]) ∧
  None ∈ (getAvailableVideos (uploadHandler rand env req σ).1.2).1.
Proof.
  intros Hwf Hform Hfile Hfault Halloc. unfold uploadHandler.
  rewrite Hform, Hfile. unfold bind.
  destruct (allocate_outcome rand σ)
    as [(id & Hname & Hv & Hfree & He)|(e' & He)];
    rewrite He in Halloc |- *; [|done]. clear Halloc.
  destruct (allocated_slot σ id Hname Hv) as [Hd Hdir].
  set (σ1 := <[ ["videos"; id] := Dir ]> σ) in *.
  assert (Hsave : ∃ err, saveVideo env {| Id := id; Title := form_title req |}
                           src σ1 = (Some err, σ1, [])).
  { unfold saveVideo, bind. simpl Id.
    change (("./videos/" +:+ id) +:+ "/video.mp4")
      with (("./videos/" +:+ id) +:+ String "/" "video.mp4").
    rewrite (Create_file _ _ _ _ ["videos"; id]), Hfault; [by eexists|done..|].
    unfold σ1. rewrite lookup_insert_ne by done. simpl.
    by rewrite (fresh_slot_empty σ id "video.mp4"). }
  destruct Hsave as [err Hsave]. rewrite Hsave. simpl.
  split; [done|].
  rewrite catalog_of_listed. apply list_elem_of_fmap. exists id. split.
  - unfold σ1. by rewrite loadVideo_fresh_slot.
  - apply elem_of_listed.
    + unfold σ1. by rewrite lookup_insert_ne.
    + unfold σ1. rewrite lookup_insert_eq. by eexists.
Qed.

Lemma refused_upload_shows_nil_witness :
  let req := mkUpload None (inr whole) "My Trip" in
  let env := mkFaults (Some EACCES) None None None in
  (uploadHandler (always 42) env req store_empty).1.1
  = (None, [Redirect "/?error=fu" StatusSeeOther]) ∧
  None ∈ (getAvailableVideos
            (uploadHandler (always 42) env req store_empty).1.2).1.
Proof.
  intros req env.
  apply (refused_upload_shows_nil (always 42) env req whole store_empty
           EACCES).
  - apply wf_insert; [apply wf_empty|done..].
  - reflexivity.
  - reflexivity.
  - reflexivity.
  - vm_compute. reflexivity.
Defined.


End Handlers.

(** ** Saving again, and what a save never does *)

Section SaveAgain.
Implicit Types (σ : fs) (env : faults) (video : Video) (src : Reader).
Implicit Types (d q : list string).

(** X12. A save none of whose four calls fails, to a slot that is
    there, whatever the slot held before: [saveVideo] returns nil,
    [loadVideo] returns the video as it was saved, and the payload
    holds the bytes of the upload; what an earlier save wrote is
    gone. *)
Theorem save_round_trip env video src σ d :
  resolve σ ("./videos/" +:+ Id video) = inr d →
  node_at σ d = Some Dir →
  σ !! (d ++ ["video.mp4"]) ≠ Some Dir →
  σ !! (d ++ ["videodata.txt"]) ≠ Some Dir →
  create_video_fault env = None →
  create_data_fault env = None →
  copy_error env src = None →
  (accept (write_fault env) (Title video)).2 = None →
  let σ' := (saveVideo env video src σ).1.2 in
  (saveVideo env video src σ).1.1 = None ∧
  loadVideo σ' (Id video) = (Some video, None) ∧
  ReadFile σ' (payload_path (Id video)) = (r_bytes src, None).
Proof.
  intros Hd Hdir Hp Hm Hcv Hcd Hce Hw.
  rewrite (saveVideo_runs env video src σ d) by done. cbv zeta.
  cbn [fst snd]. rewrite (accept_all _ _ Hw). split; [done|].
  destruct (written_slot_reads σ d (Id video) (r_bytes src) (Title video))
    as [Hload Hread]; [done..|].
  split; [|done]. rewrite Hload. by destruct video.
Qed.

Lemma save_round_trip_witness :
  let again := {| Id := "b"; Title := "Second cut" |} in
  let σ' := (saveVideo no_faults again (mkReader "cut" None) store_ab).1.2 in
  (saveVideo no_faults again (mkReader "cut" None) store_ab).1.1 = None ∧
  loadVideo σ' "b" = (Some again, None) ∧
  ReadFile σ' (payload_path "b") = ("cut", None).
Proof.
  intros again.
  apply (save_round_trip no_faults again (mkReader "cut" None) store_ab
           ["videos"; "b"]); vm_compute; (reflexivity || discriminate).
Defined.

Lemma insert_file_keeps (τ : fs) d (x : string) n :
  τ !! (d ++ [x]) ≠ Some Dir →
  dirs_kept τ (<[d ++ [x] := n]> τ) ∧
  ∀ k, is_Some (τ !! k) → is_Some (<[d ++ [x] := n]> τ !! k).
Proof.
  intros Hq. split.
  - apply dirs_kept_insert. by rewrite node_at_snoc.
  - intros k Hk. destruct (decide (k = d ++ [x])) as [->|Hne].
    + rewrite lookup_insert_eq. by eexists.
    + by rewrite lookup_insert_ne.
Qed.

(** X13. [saveVideo] never removes a node and never puts a file in the
    place of a directory: what was a directory is one after the call,
    whatever was there is still there, and the tree stays a tree. *)
Theorem save_keeps_tree env video src σ :
  wf σ →
  let σ' := (saveVideo env video src σ).1.2 in
  wf σ' ∧ dirs_kept σ σ' ∧ ∀ q, is_Some (σ !! q) → is_Some (σ' !! q).
Proof.
  intros Hwf σ'. split; [by apply saveVideo_wf|].
  unfold σ'. pose proof (saveVideo_outcome env video src σ) as Hout.
  inversion Hout as [e He|d e1 p Hd Hdir Hp|d p m Hd Hdir Hp|
                     d p m t Hd Hdir Hp _ _ Hm]; simpl.
  - split; [by intros q|done].
  - by apply insert_file_keeps.
  - by apply insert_file_keeps.
  - destruct (insert_file_keeps σ d "video.mp4" (File (r_bytes src)) Hp)
      as [Hk1 Hs1].
    destruct (insert_file_keeps (<[p := File (r_bytes src)]> σ) d
                "videodata.txt" (File t.1)) as [Hk2 Hs2].
    { rewrite lookup_insert_ne; [done|]. by intros [=]%(inj (app d)). }
    split.
    + intros q Hq. by apply Hk2, Hk1.
    + intros q Hq. by apply Hs2, Hs1.
Qed.

Lemma save_keeps_tree_witness :
  let σ' := (saveVideo disk_full trip_again broken store_ab).1.2 in
  wf σ' ∧ dirs_kept store_ab σ' ∧
  ∀ q, is_Some (store_ab !! q) → is_Some (σ' !! q).
Proof.
  apply (save_keeps_tree disk_full trip_again broken store_ab).
  apply saveVideo_wf.
  apply wf_insert; [|done..].
  apply wf_insert; [|done..].
  apply wf_insert; [apply wf_empty|done..].
Defined.
End SaveAgain.
